(** * Segmented downloader: a shallow embedding of [utils/segmentDownloader.py]

    The development models the class [SegmentDownloader]: the status probe
    ([get_segment_status]), the chunk fetcher ([download_segment]), the
    dispatcher ([download_available_segments]), the monitor loop
    ([monitor_and_download]) and the assembler ([combine_segments]).

    The program is effectful: it talks to a backend over HTTP, writes files
    and sleeps.  The embedding threads an explicit [State] (the two tracking
    sets of the object, the files of the download directory, and a trace of
    the observable effects) and reads everything the environment decides
    from a [World] of oracles (what the backend answers to the n-th request,
    what the clock reads, what the external remux tool does).

    Conventions of the model:
    - Python integers are [Z]; clock readings and sleep durations are
      whole seconds ([POLLING_INTERVAL] is [2.0] in the source).
    - A request that times out is a transport error: [REQUEST_TIMEOUT]
      has no other role.
    - Logging, the content-type warning and the progress bar change
      neither the state nor the control flow and are left out; the two
      branches on [HAS_TQDM] write the same bytes.
    - The download directory exists and is writable ([__init__] creates
      it), so opening a segment file for writing succeeds.
    - [KeyboardInterrupt] is an asynchronous signal and is not modelled.
    - The worker pool refuses a width that is not positive, and runs the
      submitted fetches one after the other in submission order.  That
      is the program itself for a pool of one worker, and for any pool
      whose tasks fetch different segments; see [run_fetches] and
      [schedule_free]. *)

From stdpp Require Import gmap sorting list strings.
From Equations Require Import Equations.
From Stdlib Require Import ZArith Lia.

Open Scope Z_scope.

(** ** Configuration ([class Config]) *)

Record Config := {
  MAX_CONCURRENT : Z;
  POLLING_INTERVAL : Z;
  MAX_RETRIES : Z
}.

(** The global instance [config = Config()] with the defaults of the source. *)
Definition config : Config :=
  {| MAX_CONCURRENT := 3; POLLING_INTERVAL := 2; MAX_RETRIES := 3 |}.

(** ** Exceptions that the modelled code paths can raise *)

Inductive exn :=
| RequestException      (* requests.exceptions.RequestException and subclasses *)
| JSONDecodeError       (* json.JSONDecodeError *)
| AttributeError        (* [data.get] on a JSON value that is not an object *)
| ValueError            (* [int(...)] on a header that is not a number *)
| SegmentDownloadError  (* raised by [download_segment] on an empty file *)
| OSError               (* open / read failures *)
| CalledProcessError    (* [subprocess.run(..., check=True)], non-zero exit *)
| FileNotFoundError.    (* the external tool is not installed *)

(** ** The environment *)

(** What the backend answers to [GET /status?v=...].  The four failure
    shapes are told apart by where the source notices them:
    [session.get] raising, [raise_for_status] raising, [response.json()]
    raising, and [data.get] being applied to a JSON value that decoded
    fine but is not an object.  For an object, the two keys read by the
    source are kept ([None] when the key is missing). *)
Inductive StatusResponse :=
| StatusTransportError
| StatusHttpError
| StatusBadJson
| StatusNotObject
| StatusObject (ready : option (list Z)) (totalSegments : option Z).

(** The [content-length] header as [int(response.headers.get(..., 0))]
    sees it. *)
Inductive ContentLength :=
| CLAbsent
| CLInt (n : Z)
| CLInvalid.

(** What the backend answers to [GET /stream?v=...&segment=n].  A 2xx
    answer carries the chunks that [iter_content] yields, and whether the
    iteration ends by raising (connection lost in the middle of the body)
    instead of finishing. *)
Inductive StreamResponse :=
| StreamTransportError
| StreamHttpError
| StreamOk (content_length : ContentLength)
           (chunks : list (list Byte.byte))
           (aborts : bool).

(** What running [ffmpeg -f concat ... output_file] does: the binary may be
    missing, or it exits with a status and leaves (or not) something at
    the output path. *)
Inductive FfmpegResult :=
| FfmpegMissing
| FfmpegExit (ok : bool) (written : option (list Byte.byte)).

Record World := {
  (** answer to the n-th status request of the session *)
  status_response : nat -> StatusResponse;
  (** answer to the k-th stream request for a given segment *)
  stream_response : Z -> nat -> StreamResponse;
  (** value of the n-th call of [time.time()] in [monitor_and_download] *)
  clock : nat -> Z;
  (** [ffmpeg -version] runs and exits with status 0 *)
  ffmpeg_version_ok : bool;
  (** outcome of the concat run on a manifest listing these segments *)
  ffmpeg_run : list Z -> FfmpegResult;
  (** [open(output_file, 'wb')] succeeds *)
  output_openable : bool
}.

(** ** Program state *)

(** Observable effects, in the order they happen. *)
Inductive Event :=
| ReqStatus
| ReqStream (seg : Z)
| Sleep (secs : Z).

Global Instance Event_eq_dec : EqDecision Event.
Proof. solve_decision. Defined.

(** A file of the download directory: its bytes, and whether opening it
    for reading succeeds. *)
Record File := {
  data : list Byte.byte;
  readable : bool
}.

Definition st_size (f : File) : Z := Z.of_nat (length (data f)).

Record State := {
  (** [download_dir / segment_<n>.m4a], by segment number *)
  files : gmap Z File;
  (** [self.downloaded_segments] *)
  downloaded_segments : gset Z;
  (** [self.failed_segments] *)
  failed_segments : gset Z;
  (** the file at [output_file] *)
  output_file : option (list Byte.byte);
  (** [download_dir / segments_list.txt], as the list of segments it names *)
  list_file : option (list Z);
  (** network requests and sleeps performed so far, oldest first *)
  trace : list Event
}.

(** State of a fresh [SegmentDownloader] over a given directory content. *)
Definition init_state (fs : gmap Z File) : State :=
  {| files := fs; downloaded_segments := ∅; failed_segments := ∅;
     output_file := None; list_file := None; trace := [] |}.

Definition log (e : Event) (st : State) : State :=
  {| files := files st; downloaded_segments := downloaded_segments st;
     failed_segments := failed_segments st; output_file := output_file st;
     list_file := list_file st; trace := trace st ++ [e] |}.

Definition set_files (fs : gmap Z File) (st : State) : State :=
  {| files := fs; downloaded_segments := downloaded_segments st;
     failed_segments := failed_segments st; output_file := output_file st;
     list_file := list_file st; trace := trace st |}.

(** [self.downloaded_segments.add(segment_num)] *)
Definition add_downloaded (seg : Z) (st : State) : State :=
  {| files := files st; downloaded_segments := {[seg]} ∪ downloaded_segments st;
     failed_segments := failed_segments st; output_file := output_file st;
     list_file := list_file st; trace := trace st |}.

(** [self.failed_segments.add(segment_num)] *)
Definition add_failed (seg : Z) (st : State) : State :=
  {| files := files st; downloaded_segments := downloaded_segments st;
     failed_segments := {[seg]} ∪ failed_segments st; output_file := output_file st;
     list_file := list_file st; trace := trace st |}.

(** [time.sleep(secs)] *)
Definition sleep (secs : Z) (st : State) : State := log (Sleep secs) st.

(** Number of stream requests already made for a segment. *)
Definition stream_requests (seg : Z) (tr : list Event) : nat :=
  length (filter (λ e, e = ReqStream seg) tr).

(** Number of status requests already made. *)
Definition status_requests (tr : list Event) : nat :=
  length (filter (λ e, e = ReqStatus) tr).

(** All network requests of a trace. *)
Definition is_request (e : Event) : bool :=
  match e with ReqStatus | ReqStream _ => true | Sleep _ => false end.

Definition network_calls (tr : list Event) : list Event :=
  List.filter is_request tr.

(** [segment_file.exists() and segment_file.stat().st_size > 0] *)
Definition segment_on_disk (seg : Z) (st : State) : bool :=
  match files st !! seg with
  | Some f => bool_decide (0 < st_size f)
  | None => false
  end.

Section Downloader.

Context (cfg : Config) (w : World).

(** ** ChunkFetcher: [download_segment] *)

(** The [try] block of [download_segment], after the short-circuit test:
    [None] when the block reaches [return True], [Some e] when it raises
    [e] (both handlers only log, and control falls to the retry code). *)
Definition try_download (seg : Z) (st : State) : option exn * State :=
  let st1 := log (ReqStream seg) st in
  match stream_response w seg (stream_requests seg (trace st)) with
  | StreamTransportError => (Some RequestException, st1)   (* session.get raises *)
  | StreamHttpError => (Some RequestException, st1)        (* raise_for_status *)
  | StreamOk CLInvalid _ _ => (Some ValueError, st1)       (* int(content-length) *)
  | StreamOk _ chunks aborts =>
      (* open(segment_file, 'wb') creates or truncates the file; every
         non-empty chunk yielded before the iteration ends is written *)
      let written := concat (List.filter (λ c, negb (Nat.eqb (length c) 0)) chunks) in
      let f := {| data := written; readable := true |} in
      let st2 := set_files (<[seg := f]> (files st1)) st1 in
      if aborts then (Some RequestException, st2)          (* iter_content raises *)
      else if bool_decide (st_size f = 0)
      then (Some SegmentDownloadError, set_files (delete seg (files st2)) st2)
      else (None, add_downloaded seg st2)
  end.

(** [download_segment]: the short-circuit test, one pass through the
    [try] block, then the retry code.  The recursive call is on
    [retry_count + 1], which grows towards [MAX_RETRIES]. *)
Equations? download_segment (segment_num : Z) (retry_count : Z) (st : State)
  : bool * State by wf (Z.to_nat (MAX_RETRIES cfg - retry_count)) lt :=
download_segment segment_num retry_count st with segment_on_disk segment_num st := {
  | true => (true, add_downloaded segment_num st)
  | false with try_download segment_num st := {
    | (None, st1) => (true, st1)
    | (Some _, st1) with decide (retry_count < MAX_RETRIES cfg) := {
      | left _ =>
          let wait_time := 2 ^ retry_count in
          download_segment segment_num (retry_count + 1) (sleep wait_time st1)
      | right _ => (false, add_failed segment_num st1) } } }.
Proof. lia. Qed.

(** ** StatusProbe: [get_segment_status] *)

(** The dictionary returned by [get_segment_status]. *)
Record BackendStatus := {
  ready : list Z;
  total : option Z
}.

Definition empty_status : BackendStatus := {| ready := []; total := None |}.

(** The [try] block of [get_segment_status]: either it raises, or it
    returns the dictionary built from the decoded body. *)
Definition status_try (st : State) : (exn + BackendStatus) * State :=
  let st1 := log ReqStatus st in
  match status_response w (status_requests (trace st)) with
  | StatusTransportError => (inl RequestException, st1)   (* session.get *)
  | StatusHttpError => (inl RequestException, st1)        (* raise_for_status *)
  | StatusBadJson => (inl JSONDecodeError, st1)           (* response.json() *)
  | StatusNotObject => (inl AttributeError, st1)          (* data.get *)
  | StatusObject r t =>
      (* data.get('ready', []) and data.get('totalSegments') *)
      (inr {| ready := default [] r; total := t |}, st1)
  end.

(** The two [except] clauses catch [RequestException] and
    [json.JSONDecodeError]; anything else propagates. *)
Definition get_segment_status (st : State) : (exn + BackendStatus) * State :=
  match status_try st with
  | (inl RequestException, st1) => (inr empty_status, st1)
  | (inl JSONDecodeError, st1) => (inr empty_status, st1)
  | r => r
  end.

(** ** ConcurrencyCoordinator: [download_available_segments] *)

(** Python's [l[:m]]. *)
Definition py_slice_to {A} (l : list A) (m : Z) : list A :=
  if bool_decide (0 ≤ m) then take (Z.to_nat m) l
  else take (Z.to_nat (Z.of_nat (length l) + m)) l.

(** The list [to_download] computed by [download_available_segments]:
    the available segments that are in neither tracking set, cut to
    [max_segments] when that argument is truthy. *)
Definition to_download_of (available_segments : list Z)
    (max_segments : option Z) (st : State) : list Z :=
  let to_download :=
    filter (λ seg, (seg ∉ downloaded_segments st) ∧ (seg ∉ failed_segments st))
           available_segments in
  match max_segments with
  | Some m => if bool_decide (m ≠ 0) then py_slice_to to_download m else to_download
  | None => to_download
  end.

(** The tasks of the thread pool.  Every submitted segment runs
    [download_segment] with [retry_count = 0]; the segments whose call
    returned [True] are collected.  The tasks are run here one after the
    other in submission order, which is what a pool of one worker does.
    A pool of more workers runs them at the same time; since a fetch
    only touches the file of its own segment, adds its own number to one
    of the two sets, and gets answers that depend on the segment and on
    how many requests were made for that segment, tasks for different
    segments do not interfere and every schedule leaves the files and
    the sets of this run.  Two tasks for the same segment (a list that
    repeats an index) do interfere; with more than one worker this run
    is then only one of the possible outcomes, and the statements whose
    truth depends on it carry [schedule_free] as a hypothesis. *)
Fixpoint run_fetches (to_download : list Z) (st : State) : list Z * State :=
  match to_download with
  | [] => ([], st)
  | seg :: rest =>
      let '(success, st1) := download_segment seg 0 st in
      let '(successful_downloads, st2) := run_fetches rest st1 in
      (if success then seg :: successful_downloads else successful_downloads, st2)
  end.

(** The [with ThreadPoolExecutor(max_workers=config.MAX_CONCURRENT)]
    block: the constructor raises [ValueError] for a width that is not
    positive, before any task is submitted; otherwise the tasks run and
    the successful segments are collected. *)
Definition run_pool (to_download : list Z) (st : State) : (exn + list Z) * State :=
  if bool_decide (MAX_CONCURRENT cfg ≤ 0)
  then (inl ValueError, st)
  else
    let '(successful_downloads, st1) := run_fetches to_download st in
    (inr successful_downloads, st1).

(** [sorted(...)] on integers. *)
Definition sorted (l : list Z) : list Z := merge_sort Z.le l.

Definition download_available_segments (max_segments : option Z) (st : State)
  : (exn + list Z) * State :=
  match get_segment_status st with
  | (inl e, st1) => (inl e, st1)
  | (inr status, st1) =>
      let available_segments := ready status in
      match available_segments with
      | [] => (inr [], st1)
      | _ =>
          let to_download := to_download_of available_segments max_segments st1 in
          match to_download with
          | [] =>
              (* list(self.downloaded_segments): the set in iteration order *)
              (inr (elements (downloaded_segments st1)), st1)
          | _ =>
              match run_pool to_download st1 with
              | (inl e, st2) => (inl e, st2)      (* not caught here *)
              | (inr successful_downloads, st2) =>
                  (inr (sorted successful_downloads), st2)
              end
          end
      end
  end.

(** ** MonitorLoop: [monitor_and_download] *)

(** Why the loop was left.  The source only has [break] and the loop
    test; the reason is recorded here to state the stopping criteria. *)
Inductive StopReason :=
| AllComplete
| Stagnant
| TimedOut.

(** How one pass through the body of the [while] ends. *)
Inductive Flow :=
| Continue                (* fell through to the sleep at the end of the body *)
| Break (r : StopReason)
| Caught (e : exn).       (* [except Exception]: log, sleep, loop again *)

(** The local variables [last_segment_count] and [no_new_segments_count]. *)
Record Counters := {
  last_segment_count : Z;
  no_new_segments_count : Z
}.

Definition len {A} (l : list A) : Z := Z.of_nat (length l).

(** The [if len(downloaded) > last_segment_count] statement. *)
Definition update_counters (downloaded : list Z) (c : Counters) : Counters :=
  if bool_decide (len downloaded > last_segment_count c)
  then {| last_segment_count := len downloaded; no_new_segments_count := 0 |}
  else {| last_segment_count := last_segment_count c;
          no_new_segments_count := no_new_segments_count c + 1 |}.

(** [status.get('total') and len(self.downloaded_segments) >= status['total']] *)
Definition all_downloaded (status : BackendStatus) (st : State) : bool :=
  match total status with
  | Some t => bool_decide (t ≠ 0) && bool_decide (len (elements (downloaded_segments st)) >= t)
  | None => false
  end.

(** One pass through the body of the [while] loop, handlers included. *)
Definition monitor_cycle (c : Counters) (st : State) : Flow * Counters * State :=
  match download_available_segments None st with
  | (inl e, st1) => (Caught e, c, sleep (POLLING_INTERVAL cfg) st1)
  | (inr downloaded, st1) =>
      let c1 := update_counters downloaded c in
      match get_segment_status st1 with
      | (inl e, st2) => (Caught e, c1, sleep (POLLING_INTERVAL cfg) st2)
      | (inr status, st2) =>
          if all_downloaded status st2 then (Break AllComplete, c1, st2)
          else if bool_decide (no_new_segments_count c1 >= 10)
          then (Break Stagnant, c1, st2)
          else (Continue, c1, sleep (POLLING_INTERVAL cfg) st2)
      end
  end.

(** The [while] loop.  [k] counts the readings of the clock; whether the
    loop ends depends on the clock and on the backend, so the model takes
    a bound on the number of cycles and answers [None] when that bound is
    used up before the loop stops. *)
Fixpoint monitor_loop (fuel : nat) (start_time max_wait_time : Z) (k : nat)
    (c : Counters) (st : State) : option StopReason * Counters * State :=
  match fuel with
  | O => (None, c, st)
  | S fuel' =>
      if bool_decide (clock w k - start_time < max_wait_time) then
        match monitor_cycle c st with
        | (Break r, c1, st1) => (Some r, c1, st1)
        | (_, c1, st1) => monitor_loop fuel' start_time max_wait_time (S k) c1 st1
        end
      else (Some TimedOut, c, st)
  end.

Definition monitor_and_download (fuel : nat) (max_wait_time : Z) (st : State)
  : option (StopReason * list Z) * State :=
  let start_time := clock w 0 in
  let c0 := {| last_segment_count := 0; no_new_segments_count := 0 |} in
  match monitor_loop fuel start_time max_wait_time 1 c0 st with
  | (Some r, _, st1) => (Some (r, sorted (elements (downloaded_segments st1))), st1)
  | (None, _, st1) => (None, st1)
  end.

(** ** Assembler: [combine_segments] *)

Definition set_output (o : option (list Byte.byte)) (st : State) : State :=
  {| files := files st; downloaded_segments := downloaded_segments st;
     failed_segments := failed_segments st; output_file := o;
     list_file := list_file st; trace := trace st |}.

Definition set_list_file (l : option (list Z)) (st : State) : State :=
  {| files := files st; downloaded_segments := downloaded_segments st;
     failed_segments := failed_segments st; output_file := output_file st;
     list_file := l; trace := trace st |}.

(** The [for segment_file in segment_files] loop of [_combine_simple],
    with the output already open and holding [acc]: each segment is
    opened, read and appended; the first failure ends the loop with the
    exception, leaving what was written so far. *)
Fixpoint copy_segments (segment_files : list Z) (acc : list Byte.byte)
    (st : State) : option exn * list Byte.byte :=
  match segment_files with
  | [] => (None, acc)
  | seg :: rest =>
      match files st !! seg with
      | Some f =>
          if readable f then copy_segments rest (acc ++ data f) st
          else (Some OSError, acc)
      | None => (Some FileNotFoundError, acc)
      end
  end.

Definition _combine_simple (segment_files : list Z) (st : State) : bool * State :=
  if output_openable w then
    (* open(output_file, 'wb') creates or truncates the output *)
    match copy_segments segment_files [] st with
    | (None, out) => (true, set_output (Some out) st)
    | (Some _, out) => (false, set_output (Some out) st)    (* except Exception *)
    end
  else (false, st).

Definition _combine_with_ffmpeg (segment_files : list Z) (st : State) : bool * State :=
  let st1 := set_list_file (Some segment_files) st in
  match ffmpeg_run w segment_files with
  | FfmpegMissing => (false, st1)                           (* except Exception *)
  | FfmpegExit ok written =>
      let st2 := match written with
                 | Some b => set_output (Some b) st1
                 | None => st1
                 end in
      if ok then (true, set_list_file None st2)             (* list_file.unlink() *)
      else (false, st2)                                     (* CalledProcessError *)
  end.

(** [_has_ffmpeg] *)
Definition _has_ffmpeg : bool := ffmpeg_version_ok w.

(** The segment files that [combine_segments] hands to the chosen path. *)
Definition existing_segment_files (st : State) : list Z :=
  List.filter (λ seg_num, bool_decide (is_Some (files st !! seg_num)))
              (sorted (elements (downloaded_segments st))).

Definition combine_segments (use_ffmpeg : bool) (st : State) : bool * State :=
  match elements (downloaded_segments st) with
  | [] => (false, st)
  | _ =>
      let segment_files := existing_segment_files st in
      match segment_files with
      | [] => (false, st)
      | _ =>
          if use_ffmpeg && _has_ffmpeg
          then _combine_with_ffmpeg segment_files st
          else _combine_simple segment_files st
      end
  end.

End Downloader.

(** ** ProgressSnapshot: [get_download_stats] *)

(** The dictionary returned by [get_download_stats], without the two
    entries that repeat the job ([video_id], [download_directory]). *)
Record DownloadStats := {
  stats_downloaded_segments : Z;      (* len(self.downloaded_segments) *)
  stats_failed_segments : Z;          (* len(self.failed_segments) *)
  downloaded_list : list Z;           (* sorted(self.downloaded_segments) *)
  failed_list : list Z                (* sorted(self.failed_segments) *)
}.

Definition get_download_stats (st : State) : DownloadStats :=
  {| stats_downloaded_segments := len (elements (downloaded_segments st));
     stats_failed_segments := len (elements (failed_segments st));
     downloaded_list := sorted (elements (downloaded_segments st));
     failed_list := sorted (elements (failed_segments st)) |}.

(** ** Command line: [main] *)

(** The parsed arguments that steer [main].  The backend URL and the
    download directory select the [World] and the initial files, and
    [--verbose] only changes the logging level. *)
Record Args := {
  video_id : string;
  max_wait : Z;
  no_monitor : bool;
  combine : option string;
  no_ffmpeg : bool;
  concurrent : Z
}.

(** Truth value of [args.combine]: the option was given a non-empty path. *)
Definition combine_requested (args : Args) : bool :=
  match combine args with
  | Some (String _ _) => true
  | _ => false
  end.

(** Truth value of a list. *)
Definition nonempty {A} (l : list A) : bool :=
  match l with [] => false | _ => true end.

(** [main], from the parsed arguments to the exit status (0 when the
    function returns, 1 for every [sys.exit(1)]).  [fuel] bounds the
    cycles of the monitor loop; [None] means that bound was used up.
    The statistics are computed only to be logged. *)
Definition main (w : World) (fuel : nat) (args : Args) (fs : gmap Z File)
  : option (Z * State) :=
  if bool_decide (String.length (video_id args) ≠ 11%nat)
  then Some (1, init_state fs)
  else
    (* config.MAX_CONCURRENT = args.concurrent *)
    let cfg := {| MAX_CONCURRENT := concurrent args;
                  POLLING_INTERVAL := POLLING_INTERVAL config;
                  MAX_RETRIES := MAX_RETRIES config |} in
    (* downloader = SegmentDownloader(...) *)
    let st0 := init_state fs in
    let run :=
      if no_monitor args
      then Some (download_available_segments cfg w None st0)
      else match monitor_and_download cfg w fuel (max_wait args) st0 with
           | (Some (_, downloaded), st1) => Some (inr downloaded, st1)
           | (None, _) => None
           end in
    match run with
    | None => None
    | Some (inl _, st1) => Some (1, st1)                  (* except Exception *)
    | Some (inr downloaded, st1) =>
        if combine_requested args && nonempty downloaded then
          match combine_segments w (negb (no_ffmpeg args)) st1 with
          | (true, st2) => if nonempty downloaded then Some (0, st2) else Some (1, st2)
          | (false, st2) => Some (1, st2)
          end
        else if nonempty downloaded then Some (0, st1) else Some (1, st1)
    end.

(** ** Vocabulary of the statements *)

(** An index that is in neither tracking set. *)
Definition pending (st : State) (seg : Z) : Prop :=
  (seg ∉ downloaded_segments st) ∧ (seg ∉ failed_segments st).

(** No index is in both tracking sets. *)
Definition exclusive (st : State) : Prop :=
  downloaded_segments st ## failed_segments st.

(** [st] is a later state of the session that was in [st0]: both sets
    only grow, and no stream request was made for an index that [st0]
    already had in one of them. *)
Definition extends (st0 st : State) : Prop :=
  (downloaded_segments st0 ⊆ downloaded_segments st)
  ∧ (failed_segments st0 ⊆ failed_segments st)
  ∧ (∀ seg, ¬ pending st0 seg →
      stream_requests seg (trace st) = stream_requests seg (trace st0)).

(** The events a fetch of [seg] may add to the trace. *)
Definition fetch_event (seg : Z) (e : Event) : Prop :=
  e = ReqStream seg ∨ ∃ d, e = Sleep d.

(** What a whole fetch does to the state: the segment number goes into
    exactly one of the two sets according to the returned value, only the
    segment's own file may change, and the trace grows by stream requests
    for that segment and sleeps. *)
Record fetch_effect (seg : Z) (st : State) (res : bool * State) : Prop := {
  fe_downloaded :
    downloaded_segments res.2
    = if res.1 then {[seg]} ∪ downloaded_segments st else downloaded_segments st;
  fe_failed :
    failed_segments res.2
    = if res.1 then failed_segments st else {[seg]} ∪ failed_segments st;
  fe_files : ∀ s, s ≠ seg → files res.2 !! s = files st !! s;
  fe_output : output_file res.2 = output_file st;
  fe_list : list_file res.2 = list_file st;
  fe_trace : ∃ evs, trace res.2 = trace st ++ evs ∧ Forall (fetch_event seg) evs
}.

(** The [ready] list that a probe made in state [st] returns. *)
Definition probe_ready (w : World) (st : State) : list Z :=
  match (get_segment_status w st).1 with
  | inr status => ready status
  | inl _ => []
  end.

(** The backend never lists an index twice in one answer. *)
Definition ready_lists_nodup (w : World) : Prop :=
  ∀ n r t, status_response w n = StatusObject (Some r) t → NoDup r.

(** The files and the sets that a pool run leaves do not depend on the
    order in which the workers take their steps: the pool has at most
    one worker, or no status answer lists an index twice, so that no two
    tasks of a round fetch the same segment. *)
Definition schedule_free (cfg : Config) (w : World) : Prop :=
  MAX_CONCURRENT cfg ≤ 1 ∨ ready_lists_nodup w.

(** A transient failure of a stream request: timeout or connection
    failure, or a status outside 2xx. *)
Definition fails_transiently (r : StreamResponse) : Prop :=
  r = StreamTransportError ∨ r = StreamHttpError.

(** The trace of a fetch that starts at attempt number [attempt] and
    still has [retries] retries: requests separated by sleeps of
    [2 ^ attempt] seconds. *)
Fixpoint backoff_trace (seg : Z) (attempt : Z) (retries : nat) : list Event :=
  match retries with
  | O => [ReqStream seg]
  | S n => ReqStream seg :: Sleep (2 ^ attempt) :: backoff_trace seg (attempt + 1) n
  end.

(** A failed probe: transport error, status outside 2xx, or a body that
    is not JSON. *)
Definition probe_failure (r : StatusResponse) : Prop :=
  r = StatusTransportError ∨ r = StatusHttpError ∨ r = StatusBadJson.

(** Reading the segment file fails: it is missing or cannot be opened. *)
Definition unreadable (st : State) (seg : Z) : Prop :=
  ∀ f, files st !! seg = Some f → readable f = false.

(** An I/O failure on the simple-concatenation path. *)
Definition simple_io_failure (w : World) (segment_files : list Z) (st : State) : Prop :=
  output_openable w = false ∨ ∃ seg, seg ∈ segment_files ∧ unreadable st seg.

(** A failure on the remux path: the tool is missing or exits non-zero. *)
Definition ffmpeg_io_failure (w : World) (segment_files : list Z) : Prop :=
  ∀ written, ffmpeg_run w segment_files ≠ FfmpegExit true written.

(** The bytes of the given segment files, in order. *)
Definition segments_bytes (st : State) (segment_files : list Z) : list Byte.byte :=
  concat (List.map (λ seg, match files st !! seg with
                           | Some f => data f
                           | None => []
                           end) segment_files).

(** The state of an index as the two tracking sets record it.  The source
    keeps no mark for an index whose fetch is running: until the fetch
    returns, such an index is in neither set. *)
Inductive ChunkState :=
| Pending
| Downloaded
| Failed.

Definition recorded (st : State) (seg : Z) (s : ChunkState) : Prop :=
  match s with
  | Pending => pending st seg
  | Downloaded => seg ∈ downloaded_segments st
  | Failed => seg ∈ failed_segments st
  end.

Definition exactly_one_state (st : State) (seg : Z) : Prop :=
  ∃ s, recorded st seg s ∧ ∀ s', recorded st seg s' → s' = s.

(** A status answer with nothing ready and no negative total: a failed
    probe, or an object whose [ready] list is empty or missing. *)
Definition nothing_ready (r : StatusResponse) : Prop :=
  probe_failure r
  ∨ ∃ rdy t, r = StatusObject rdy t ∧ default [] rdy = [] ∧ (∀ z, t = Some z → 0 ≤ z).

(** The body of a 2xx answer is delivered whole. *)
Definition body_complete (r : StreamResponse) : Prop :=
  ∀ cl chunks aborts, r = StreamOk cl chunks aborts → aborts = false.

(** ** Concrete backends and directories used in the examples *)

(** The configuration of [--concurrent 1]: the pool has one worker and
    runs the submitted fetches one after the other. *)
Definition config_one_worker : Config :=
  {| MAX_CONCURRENT := 1; POLLING_INTERVAL := 2; MAX_RETRIES := 3 |}.

Definition backend (status : nat → StatusResponse)
    (stream : Z → nat → StreamResponse) : World :=
  {| status_response := status; stream_response := stream;
     clock := λ n, 2 * Z.of_nat n;
     ffmpeg_version_ok := false; ffmpeg_run := λ _, FfmpegMissing;
     output_openable := true |}.

(** A complete one-byte body. *)
Definition one_byte_ok : StreamResponse := StreamOk CLAbsent [[Byte.x61]] false.

(** A body cut by a connection error after its first byte. *)
Definition one_byte_then_abort : StreamResponse := StreamOk CLAbsent [[Byte.x61]] true.

(** Every request is refused. *)
Definition w_down : World :=
  backend (λ _, StatusTransportError) (λ _ _, StreamTransportError).

(** Three transport errors, then a body that breaks after one byte. *)
Definition w_abort_last : World :=
  backend (λ _, StatusTransportError)
          (λ _ k, if (k <? 3)%nat then StreamTransportError else one_byte_then_abort).

(** The first body breaks after one byte. *)
Definition w_abort_first : World :=
  backend (λ _, StatusTransportError) (λ _ _, one_byte_then_abort).

(** Every body breaks before its first byte. *)
Definition w_abort_empty : World :=
  backend (λ _, StatusTransportError) (λ _ _, StreamOk CLAbsent [] true).

(** One more segment is ready at each dispatch round. *)
Definition w_two_rounds : World :=
  backend (λ n, StatusObject (Some (if (n =? 0)%nat then [0] else [0; 1])) None)
          (λ _ _, one_byte_ok).

(** One more segment is ready at each monitor cycle (a cycle makes two
    status requests). *)
Definition w_progressive : World :=
  backend (λ n, StatusObject (Some (List.map Z.of_nat (seq 0 (S (n / 2))))) None)
          (λ _ _, one_byte_ok).

(** The backend lists segment 1 twice; the first four requests for it
    are refused and the fifth succeeds. *)
Definition w_duplicate : World :=
  backend (λ _, StatusObject (Some [1; 1]) None)
          (λ _ k, if (k <? 4)%nat then StreamTransportError else one_byte_ok).


(** The backend never has anything ready. *)
Definition w_nothing_ready : World :=
  backend (λ _, StatusObject (Some []) None) (λ _ _, one_byte_ok).

(** A directory holding segment 7 with one byte. *)
Definition st_seg7_on_disk : State :=
  init_state {[ 7 := {| data := [Byte.x61]; readable := true |} ]}.

(** A directory holding an empty file for segment 7. *)
Definition st_seg7_empty : State :=
  init_state {[ 7 := {| data := []; readable := true |} ]}.

(** Segments 0 and 1 downloaded; the file of segment 1 cannot be read. *)
Definition st_unreadable : State :=
  {| files := {[ 0 := {| data := [Byte.x61]; readable := true |};
                 1 := {| data := [Byte.x62]; readable := false |} ]};
     downloaded_segments := {[ 0; 1 ]}; failed_segments := ∅;
     output_file := None; list_file := None; trace := [] |}.

(** Every index recorded Downloaded has a non-empty file on disk. *)
Definition downloaded_on_disk (st : State) : Prop :=
  ∀ seg, seg ∈ downloaded_segments st → segment_on_disk seg st = true.

(** The bytes that the writing loop of [download_segment] puts in the
    file for the chunks it is given. *)
Definition received (chunks : list (list Byte.byte)) : list Byte.byte :=
  concat (List.filter (λ c, negb (Nat.eqb (length c) 0)) chunks).

(** A 2xx answer whose body arrives whole and is not empty. *)
Definition delivers (r : StreamResponse) : Prop :=
  ∃ cl chunks, r = StreamOk cl chunks false ∧ cl ≠ CLInvalid ∧ received chunks ≠ [].

(** A 2xx answer whose body arrives whole and holds no byte. *)
Definition empty_body (r : StreamResponse) : Prop :=
  ∃ cl chunks, r = StreamOk cl chunks false ∧ cl ≠ CLInvalid ∧ received chunks = [].

(** A stream request that fails before any byte of the body is written
    to the segment file: a timeout or a connection failure, a status
    outside 2xx, or a connection lost during the body before its first
    byte. *)
Definition fails_before_body (r : StreamResponse) : Prop :=
  r = StreamTransportError ∨ r = StreamHttpError
  ∨ ∃ cl chunks, r = StreamOk cl chunks true ∧ cl ≠ CLInvalid ∧ received chunks = [].

(** The segment files of the listed indices can all be read. *)
Definition all_readable (st : State) (segment_files : list Z) : Prop :=
  ∀ seg, seg ∈ segment_files → ∃ f, files st !! seg = Some f ∧ readable f = true.

(** Every body is empty. *)
Definition w_empty_bodies : World :=
  backend (λ _, StatusTransportError) (λ _ _, StreamOk (CLInt 0) [] false).

(** Segments 0 and 1 are ready, two segments in total, every body is one byte. *)
Definition w_complete : World :=
  backend (λ _, StatusObject (Some [0; 1]) (Some 2)) (λ _ _, one_byte_ok).

(** Segments 0 and 1 downloaded, both files readable. *)
Definition st_two_segments : State :=
  {| files := {[ 0 := {| data := [Byte.x61]; readable := true |};
                 1 := {| data := [Byte.x62]; readable := true |} ]};
     downloaded_segments := {[ 0; 1 ]}; failed_segments := ∅;
     output_file := None; list_file := None; trace := [] |}.

(** A stream request event. *)
Definition is_stream_request (e : Event) : Prop := ∃ seg, e = ReqStream seg.

(** The remux tool is installed and exits with a non-zero status. *)
Definition w_ffmpeg_fails : World :=
  {| status_response := λ _, StatusTransportError;
     stream_response := λ _ _, StreamTransportError;
     clock := λ n, 2 * Z.of_nat n;
     ffmpeg_version_ok := true; ffmpeg_run := λ _, FfmpegExit false None;
     output_openable := true |}.

(** [segmentDownloader.py dQw4w9WgXcQ --no-monitor --combine out.m4a --no-ffmpeg] *)
Definition args_one_shot : Args :=
  {| video_id := "dQw4w9WgXcQ"; max_wait := 300; no_monitor := true;
     combine := Some "out.m4a"%string; no_ffmpeg := true; concurrent := 3 |}.

(** The bytes the backend sends in its [k]-th answer for a segment. *)
Definition body_at (w : World) (seg : Z) (k : nat) : list Byte.byte :=
  match stream_response w seg k with
  | StreamOk _ chunks _ => received chunks
  | _ => []
  end.

(** Every status body is valid JSON but not an object. *)
Definition w_not_object : World :=
  backend (λ _, StatusNotObject) (λ _ _, one_byte_ok).

(** * Properties *)

(** ** Basic facts on traces and state updates *)

Lemma stream_requests_app seg tr1 tr2 :
  stream_requests seg (tr1 ++ tr2)
  = (stream_requests seg tr1 + stream_requests seg tr2)%nat.
Proof. unfold stream_requests. by rewrite filter_app, length_app. Qed.

Lemma status_requests_app tr1 tr2 :
  status_requests (tr1 ++ tr2) = (status_requests tr1 + status_requests tr2)%nat.
Proof. unfold status_requests. by rewrite filter_app, length_app. Qed.

Lemma fetch_events_other_requests seg s evs :
  Forall (fetch_event seg) evs → s ≠ seg → stream_requests s evs = 0%nat.
Proof.
  intros Hall Hne. induction Hall as [|e evs He _ IH]; [done|].
  unfold stream_requests in *. rewrite filter_cons.
  destruct (decide (e = ReqStream s)) as [->|]; [|done].
  destruct He as [He|[d He]]; congruence.
Qed.

Lemma segment_on_disk_files seg st st' :
  files st' !! seg = files st !! seg →
  segment_on_disk seg st' = segment_on_disk seg st.
Proof. unfold segment_on_disk. by intros ->. Qed.

Section FetcherFacts.

Context (cfg : Config) (w : World).

Local Abbreviation fetch := (download_segment cfg w).
Local Abbreviation attempt := (try_download w).

(** The body of [download_segment], as one equation. *)
Lemma download_segment_eq seg r st :
  fetch seg r st =
    if segment_on_disk seg st then (true, add_downloaded seg st)
    else match attempt seg st with
         | (None, st1) => (true, st1)
         | (Some _, st1) =>
             if decide (r < MAX_RETRIES cfg)
             then fetch seg (r + 1) (sleep (2 ^ r) st1)
             else (false, add_failed seg st1)
         end.
Proof.
  simp download_segment.
  destruct (segment_on_disk seg st); simpl; [done|].
  destruct (attempt seg st) as [[e|] st1]; simpl; [|done].
  destruct (decide (r < MAX_RETRIES cfg)); simpl; done.
Qed.

(** Induction along the retries of one fetch. *)
Lemma download_segment_cases seg (P : Z → State → bool * State → Prop) :
  (∀ r st, segment_on_disk seg st = true → P r st (true, add_downloaded seg st)) →
  (∀ r st st1, segment_on_disk seg st = false →
      attempt seg st = (None, st1) → P r st (true, st1)) →
  (∀ r st e st1, segment_on_disk seg st = false →
      attempt seg st = (Some e, st1) → r < MAX_RETRIES cfg →
      P (r + 1) (sleep (2 ^ r) st1) (fetch seg (r + 1) (sleep (2 ^ r) st1)) →
      P r st (fetch seg (r + 1) (sleep (2 ^ r) st1))) →
  (∀ r st e st1, segment_on_disk seg st = false →
      attempt seg st = (Some e, st1) → ¬ r < MAX_RETRIES cfg →
      P r st (false, add_failed seg st1)) →
  ∀ r st, P r st (fetch seg r st).
Proof.
  intros Hdisk Hok Hretry Hfail r st.
  remember (Z.to_nat (MAX_RETRIES cfg - r)) as n eqn:Hn.
  revert r st Hn. induction n as [|n IH]; intros r st Hn;
    rewrite download_segment_eq;
    destruct (segment_on_disk seg st) eqn:Hd; try (by apply Hdisk);
    destruct (attempt seg st) as [[e|] st1] eqn:Ht; try (by eapply Hok);
    destruct (decide (r < MAX_RETRIES cfg)) as [Hlt|Hge]; try (by eapply Hfail).
  - lia.
  - eapply Hretry; eauto. apply IH. lia.
Qed.

(** What one pass through the [try] block does to the state. *)
Lemma try_download_effect seg st :
  let '(r, st1) := attempt seg st in
  trace st1 = trace st ++ [ReqStream seg]
  ∧ failed_segments st1 = failed_segments st
  ∧ downloaded_segments st1
    = (if r is None then {[seg]} ∪ downloaded_segments st else downloaded_segments st)
  ∧ output_file st1 = output_file st
  ∧ list_file st1 = list_file st
  ∧ (∀ s, s ≠ seg → files st1 !! s = files st !! s).
Proof.
  unfold try_download.
  destruct (stream_response w seg _) as [| |cl chunks aborts]; simpl; [by auto..|].
  destruct cl; [| |by auto];
    (destruct aborts; [|case_bool_decide]); simpl;
    repeat split; auto; intros s Hs;
    rewrite ?lookup_delete_ne, ?lookup_insert_ne; auto.
Qed.

Lemma download_segment_effect seg r st :
  fetch_effect seg st (fetch seg r st).
Proof.
  revert r st.
  apply (download_segment_cases seg (λ _ st res, fetch_effect seg st res)).
  - intros _ st _. split; simpl; auto. exists []. by rewrite app_nil_r.
  - intros _ st st1 _ Ht. pose proof (try_download_effect seg st) as H.
    rewrite Ht in H. destruct H as (Htr & Hf & Hd & Ho & Hl & Hfs).
    split; simpl; auto.
    exists [ReqStream seg]. split; [done|].
    apply List.Forall_cons; [by left|done].
  - intros r st e st1 _ Ht _ IH. pose proof (try_download_effect seg st) as H.
    rewrite Ht in H. destruct H as (Htr & Hf & Hd & Ho & Hl & Hfs).
    destruct IH as [IHd IHf IHfs IHo IHl (evs & IHtr & IHall)]. simpl in *.
    split; simpl.
    + rewrite IHd. by rewrite Hd.
    + rewrite IHf. by rewrite Hf.
    + intros s Hs. rewrite IHfs by done. by apply Hfs.
    + congruence.
    + congruence.
    + exists (ReqStream seg :: Sleep (2 ^ r) :: evs). split.
      * rewrite IHtr, Htr. by rewrite <- !app_assoc.
      * apply List.Forall_cons; [by left|].
        apply List.Forall_cons; [by right; eexists|done].
  - intros r st e st1 _ Ht _. pose proof (try_download_effect seg st) as H.
    rewrite Ht in H. destruct H as (Htr & Hf & Hd & Ho & Hl & Hfs).
    split; simpl; auto; [by rewrite Hf|].
    exists [ReqStream seg]. split; [done|].
    apply List.Forall_cons; [by left|done].
Qed.

End FetcherFacts.

(** ** The dispatcher and the monitor loop: what a session preserves *)

Lemma extends_refl st : extends st st.
Proof. by repeat split. Qed.

Lemma not_pending_mono st0 st seg :
  downloaded_segments st0 ⊆ downloaded_segments st →
  failed_segments st0 ⊆ failed_segments st →
  ¬ pending st0 seg → ¬ pending st seg.
Proof. unfold pending. intros Hd Hf Hn [H1 H2]. apply Hn. set_solver. Qed.

Lemma extends_trans st0 st1 st2 :
  extends st0 st1 → extends st1 st2 → extends st0 st2.
Proof.
  intros (Hd1 & Hf1 & Hr1) (Hd2 & Hf2 & Hr2). repeat split; [set_solver..|].
  intros seg Hseg. rewrite Hr2, Hr1; eauto using not_pending_mono.
Qed.

Lemma extends_log e st :
  (∀ seg, e ≠ ReqStream seg) → extends st (log e st).
Proof.
  intros He. repeat split; [done..|]. intros seg _. simpl.
  rewrite stream_requests_app. unfold stream_requests at 2.
  rewrite filter_cons, decide_False by apply He. simpl. lia.
Qed.

Section SessionFacts.

Context (cfg : Config) (w : World).

Local Abbreviation fetch := (download_segment cfg w).
Local Abbreviation pool := (run_fetches cfg w).

(** A fetch of a pending index leaves the session in a later state, and
    keeps the two sets disjoint. *)
Lemma download_segment_extends seg r st :
  pending st seg → extends st (fetch seg r st).2.
Proof.
  intros Hp. destruct (download_segment_effect cfg w seg r st)
    as [Hd Hf _ _ _ (evs & Htr & Hall)].
  repeat split.
  - rewrite Hd. clear. destruct (fetch seg r st).1; set_solver.
  - rewrite Hf. clear. destruct (fetch seg r st).1; set_solver.
  - intros s Hs. rewrite Htr, stream_requests_app.
    rewrite (fetch_events_other_requests seg s evs); [lia|done|].
    intros ->. by apply Hs.
Qed.

Lemma download_segment_exclusive seg r st :
  pending st seg → exclusive st → exclusive (fetch seg r st).2.
Proof.
  intros [Hp1 Hp2] Hex. destruct (download_segment_effect cfg w seg r st)
    as [Hd Hf _ _ _ _].
  unfold exclusive in *. rewrite Hd, Hf. clear Hd Hf.
  destruct (fetch seg r st).1; set_solver.
Qed.

Lemma pending_after_other_fetch seg s r st :
  s ≠ seg → pending st s → pending (fetch seg r st).2 s.
Proof.
  intros Hne [H1 H2]. destruct (download_segment_effect cfg w seg r st)
    as [Hd Hf _ _ _ _].
  unfold pending. rewrite Hd, Hf. clear Hd Hf.
  destruct (fetch seg r st).1; set_solver.
Qed.

(** The pool only makes stream requests for the indices it was given. *)
Lemma run_fetches_requests l st seg :
  seg ∉ l →
  stream_requests seg (trace (pool l st).2) = stream_requests seg (trace st).
Proof.
  revert st. induction l as [|s l IH]; intros st Hseg; simpl; [done|].
  destruct (fetch s 0 st) as [ok st1] eqn:H1.
  destruct (pool l st1) as [succ st2] eqn:H2. simpl.
  replace st2 with (pool l st1).2 by by rewrite H2.
  rewrite IH by set_solver.
  destruct (download_segment_effect cfg w s 0 st) as [_ _ _ _ _ (evs & Htr & Hall)].
  rewrite H1 in Htr. simpl in Htr. rewrite Htr, stream_requests_app.
  rewrite (fetch_events_other_requests s seg evs); [lia|done|set_solver].
Qed.

Lemma run_fetches_exclusive l st :
  NoDup l → (∀ s, s ∈ l → pending st s) → exclusive st →
  exclusive (pool l st).2.
Proof.
  revert st. induction l as [|s l IH]; intros st Hnd Hp Hex; simpl; [done|].
  apply NoDup_cons in Hnd as [Hs Hnd].
  pose proof (download_segment_exclusive s 0 st) as He.
  destruct (fetch s 0 st) as [ok st1] eqn:H1.
  specialize (IH st1 Hnd).
  destruct (pool l st1) as [succ st2] eqn:H2. simpl in *.
  apply IH; [|apply He; [apply Hp; set_solver|done]].
  intros s' Hs'.
  replace st1 with (fetch s 0 st).2 by by rewrite H1.
  apply pending_after_other_fetch; [set_solver|]. apply Hp. set_solver.
Qed.

(** Whatever the submitted list, the two sets only grow. *)
Lemma run_fetches_grows l st :
  downloaded_segments st ⊆ downloaded_segments (pool l st).2
  ∧ failed_segments st ⊆ failed_segments (pool l st).2.
Proof.
  revert st. induction l as [|s l IH]; intros st; simpl; [done|].
  destruct (download_segment_effect cfg w s 0 st) as [Hd Hf _ _ _ _].
  destruct (fetch s 0 st) as [ok st1] eqn:H1.
  specialize (IH st1).
  destruct (pool l st1) as [succ st2] eqn:H2. simpl in *.
  destruct IH as [IHd IHf]. rewrite Hd in IHd. rewrite Hf in IHf.
  clear Hd Hf H1 H2. destruct ok; set_solver.
Qed.

Lemma run_fetches_extends l st :
  (∀ s, s ∈ l → pending st s) → extends st (pool l st).2.
Proof.
  intros Hp. destruct (run_fetches_grows l st) as [Hd Hf].
  repeat split; [done..|]. intros seg Hseg.
  apply run_fetches_requests. intros Hin. by apply Hseg, Hp.
Qed.

End SessionFacts.

(** ** Dispatch rounds and monitor cycles *)

Lemma py_slice_to_sublist {A} (l : list A) m : py_slice_to l m `sublist_of` l.
Proof. unfold py_slice_to. case_bool_decide; apply sublist_take. Qed.

Lemma to_download_of_sublist available m st :
  to_download_of available m st `sublist_of` filter (pending st) available.
Proof.
  unfold to_download_of. destruct m as [m|]; [|done].
  case_bool_decide; [apply py_slice_to_sublist|done].
Qed.

Lemma to_download_of_elem available m st s :
  s ∈ to_download_of available m st → s ∈ available ∧ pending st s.
Proof.
  intros Hs. eapply elem_of_sublist in Hs; [|apply to_download_of_sublist].
  apply list_elem_of_filter in Hs. tauto.
Qed.

Lemma to_download_of_NoDup available m st :
  NoDup available → NoDup (to_download_of available m st).
Proof.
  intros Hnd. eapply sublist_NoDup; [|apply to_download_of_sublist].
  by apply NoDup_filter.
Qed.

Lemma to_download_of_unlimited available st s :
  s ∈ to_download_of available None st ↔ s ∈ available ∧ pending st s.
Proof. unfold to_download_of. rewrite list_elem_of_filter. unfold pending. tauto. Qed.

Section RoundFacts.

Context (cfg : Config) (w : World).

Local Abbreviation pool := (run_fetches cfg w).
Local Abbreviation probe := (get_segment_status w).
Local Abbreviation dispatch := (download_available_segments cfg w).
Local Abbreviation cycle := (monitor_cycle cfg w).
Local Abbreviation loop := (monitor_loop cfg w).

Lemma get_segment_status_state st :
  (probe st).2 = log ReqStatus st.
Proof.
  unfold get_segment_status, status_try.
  by destruct (status_response w _).
Qed.

Lemma probe_ready_NoDup st : ready_lists_nodup w → NoDup (probe_ready w st).
Proof.
  intros Hw. unfold probe_ready, get_segment_status, status_try.
  destruct (status_response w _) as [| | | |r t] eqn:Hr; simpl; try apply NoDup_nil_2.
  destruct r as [r|]; simpl; [by eapply Hw|apply NoDup_nil_2].
Qed.

(** The shape of a dispatch round, with the probe made explicit. *)
Lemma download_available_segments_eq m st :
  dispatch m st =
    match (probe st).1 with
    | inl e => (inl e, log ReqStatus st)
    | inr _ =>
        match probe_ready w st with
        | [] => (inr [], log ReqStatus st)
        | _ =>
            let to_download := to_download_of (probe_ready w st) m st in
            match to_download with
            | [] => (inr (elements (downloaded_segments st)), log ReqStatus st)
            | _ =>
                if bool_decide (MAX_CONCURRENT cfg ≤ 0)
                then (inl ValueError, log ReqStatus st)
                else
                  let res := pool to_download (log ReqStatus st) in
                  (inr (sorted res.1), res.2)
            end
        end
    end.
Proof.
  unfold download_available_segments, probe_ready.
  pose proof (get_segment_status_state st) as Hst.
  destruct (probe st) as [[e|status] st1]; simpl in *; subst st1; [done|].
  destruct (ready status) as [|a l]; [done|].
  change (to_download_of (a :: l) m (log ReqStatus st))
    with (to_download_of (a :: l) m st).
  destruct (to_download_of (a :: l) m st) as [|b l']; [done|].
  unfold run_pool. case_bool_decide; [done|].
  by destruct (pool (b :: l') (log ReqStatus st)).
Qed.

Lemma dispatch_state_cases m st :
  (dispatch m st).2 = log ReqStatus st
  ∨ (dispatch m st).2
    = (pool (to_download_of (probe_ready w st) m st) (log ReqStatus st)).2.
Proof.
  rewrite download_available_segments_eq.
  destruct (probe st).1; [by left|].
  destruct (probe_ready w st); [by left|].
  simpl. destruct (to_download_of _ m st); [by left|].
  case_bool_decide; [by left|by right].
Qed.

Lemma dispatch_extends m st : extends st (dispatch m st).2.
Proof.
  destruct (dispatch_state_cases m st) as [-> | ->].
  - by apply extends_log.
  - eapply extends_trans; [by apply (extends_log ReqStatus)|].
    apply run_fetches_extends. intros s Hs.
    by apply to_download_of_elem in Hs as [_ Hs].
Qed.

Lemma dispatch_exclusive m st :
  ready_lists_nodup w → exclusive st →
  exclusive (dispatch m st).2.
Proof.
  intros Hw Hex. destruct (dispatch_state_cases m st) as [-> | ->]; [done|].
  apply run_fetches_exclusive; [| |done].
  - by apply to_download_of_NoDup, probe_ready_NoDup.
  - intros s Hs. by apply to_download_of_elem in Hs as [_ Hs].
Qed.

(** Stream requests of a round go to submitted indices only. *)
Lemma dispatch_requests m st seg :
  seg ∉ to_download_of (probe_ready w st) m st →
  stream_requests seg (trace (dispatch m st).2)
  = stream_requests seg (trace st).
Proof.
  intros Hseg.
  assert (stream_requests seg (trace (log ReqStatus st)) = stream_requests seg (trace st))
    as Hlog.
  { simpl. rewrite stream_requests_app. unfold stream_requests at 2.
    rewrite filter_cons, decide_False by done. simpl. lia. }
  destruct (dispatch_state_cases m st) as [-> | ->]; [done|].
  by rewrite run_fetches_requests.
Qed.

Lemma monitor_cycle_state_cases c st :
  let st1 := (dispatch None st).2 in
  (cycle c st).2 = sleep (POLLING_INTERVAL cfg) st1
  ∨ (cycle c st).2 = log ReqStatus st1
  ∨ (cycle c st).2 = sleep (POLLING_INTERVAL cfg) (log ReqStatus st1).
Proof.
  unfold monitor_cycle. simpl.
  destruct (dispatch None st) as [[e|downloaded] st1]; simpl;
    [by left|].
  pose proof (get_segment_status_state st1) as Hst.
  destruct (probe st1) as [[e|status] st2]; simpl in *; subst st2;
    [by right; right|].
  destruct (all_downloaded status _); [by right; left|].
  case_bool_decide; [by right; left|by right; right].
Qed.

Lemma monitor_cycle_extends c st : extends st (cycle c st).2.
Proof.
  pose proof (dispatch_extends None st) as Hd.
  destruct (monitor_cycle_state_cases c st) as [-> | [-> | ->]];
    (eapply extends_trans; [apply Hd|]);
    repeat first [by apply extends_log
                 | eapply extends_trans; [|by apply extends_log] ].
Qed.

Lemma monitor_cycle_exclusive c st :
  ready_lists_nodup w → exclusive st → exclusive (cycle c st).2.
Proof.
  intros Hw Hex. pose proof (dispatch_exclusive None st Hw Hex) as Hd.
  by destruct (monitor_cycle_state_cases c st) as [-> | [-> | ->]].
Qed.

Lemma monitor_loop_extends fuel start_time max_wait_time k c st :
  extends st (loop fuel start_time max_wait_time k c st).2.
Proof.
  revert k c st. induction fuel as [|fuel IH]; intros k c st; simpl.
  { apply extends_refl. }
  case_bool_decide; [|apply extends_refl].
  pose proof (monitor_cycle_extends c st) as Hc.
  destruct (cycle c st) as [[[| r | e] c1] st1]; simpl in *; [|done|];
    (eapply extends_trans; [apply Hc|apply IH]).
Qed.

Lemma monitor_loop_exclusive fuel start_time max_wait_time k c st :
  ready_lists_nodup w → exclusive st →
  exclusive (loop fuel start_time max_wait_time k c st).2.
Proof.
  intros Hw. revert k c st. induction fuel as [|fuel IH]; intros k c st Hex; simpl;
    [done|].
  case_bool_decide; [|done].
  pose proof (monitor_cycle_exclusive c st Hw Hex) as Hc.
  destruct (cycle c st) as [[[| r | e] c1] st1]; simpl in *; [|done|];
    by apply IH.
Qed.

End RoundFacts.

(** ** ChunkFetcher *)

Section FetcherClaims.

Context (cfg : Config) (w : World).

Local Abbreviation fetch := (download_segment cfg w).

Lemma fetch_on_disk seg r st :
  segment_on_disk seg st = true → fetch seg r st = (true, add_downloaded seg st).
Proof. intros Hd. rewrite download_segment_eq. by rewrite Hd. Qed.

Lemma add_downloaded_idemp seg st :
  add_downloaded seg (add_downloaded seg st) = add_downloaded seg st.
Proof.
  unfold add_downloaded. simpl. f_equal. set_solver.
Qed.

Lemma segment_on_disk_spec seg st :
  segment_on_disk seg st = true ↔ ∃ f, files st !! seg = Some f ∧ 0 < st_size f.
Proof.
  unfold segment_on_disk. destruct (files st !! seg) as [f|]; split.
  - intros H%bool_decide_eq_true. eauto.
  - intros (f' & [= <-] & H). by apply bool_decide_eq_true.
  - done.
  - by intros (f' & ? & _).
Qed.

(** A fetch that does not find its file on disk starts with a stream
    request for its segment. *)
Lemma fetch_not_on_disk_requests seg r st :
  segment_on_disk seg st = false →
  ∃ evs, trace (fetch seg r st).2 = trace st ++ ReqStream seg :: evs.
Proof.
  intros Hd. rewrite download_segment_eq, Hd.
  pose proof (try_download_effect w seg st) as H.
  destruct (try_download w seg st) as [[e|] st1]; destruct H as (Htr & _).
  - destruct (decide (r < MAX_RETRIES cfg)).
    + destruct (download_segment_effect cfg w seg (r + 1) (sleep (2 ^ r) st1))
        as [_ _ _ _ _ (evs & Hevs & _)].
      exists (Sleep (2 ^ r) :: evs). rewrite Hevs. simpl. rewrite Htr.
      by rewrite <- !app_assoc.
    + exists []. by simpl.
  - exists []. by simpl.
Qed.

Lemma fails_transiently_before_body r :
  fails_transiently r → fails_before_body r.
Proof. intros [-> | ->]; [by left|by right; left]. Qed.





End FetcherClaims.

(** C6. Calling the fetcher twice for an index whose artifact is on disk
    with non-zero size returns Success both times and makes no network
    call: neither invocation adds anything to the trace, the files are
    untouched, and the second invocation leaves the state as the first
    one left it. *)
Theorem fetch_on_disk_idempotent cfg w seg r1 r2 st :
  segment_on_disk seg st = true →
  let first := download_segment cfg w seg r1 st in
  let second := download_segment cfg w seg r2 first.2 in
  first.1 = true ∧ second.1 = true
  ∧ network_calls (trace first.2) = network_calls (trace st)
  ∧ network_calls (trace second.2) = network_calls (trace st)
  ∧ trace second.2 = trace st
  ∧ files second.2 = files st
  ∧ second.2 = first.2.
Proof.
  intros Hd. simpl. rewrite (fetch_on_disk cfg w seg r1 st Hd). simpl.
  rewrite (fetch_on_disk cfg w seg r2 (add_downloaded seg st)) by done. simpl.
  by rewrite add_downloaded_idemp.
Qed.

Lemma fetch_on_disk_idempotent_witness :
  segment_on_disk 7 st_seg7_on_disk = true
  ∧ let first := download_segment config w_down 7 0 st_seg7_on_disk in
    let second := download_segment config w_down 7 0 first.2 in
    first.1 = true ∧ second.1 = true
    ∧ network_calls (trace first.2) = network_calls (trace st_seg7_on_disk)
    ∧ network_calls (trace second.2) = network_calls (trace st_seg7_on_disk)
    ∧ trace second.2 = trace st_seg7_on_disk
    ∧ files second.2 = files st_seg7_on_disk
    ∧ second.2 = first.2.
Proof.
  split; [reflexivity|].
  apply (fetch_on_disk_idempotent config w_down 7 0 0 st_seg7_on_disk).
  reflexivity.
Defined.

(** C10. The short-circuit test of a fetch is exactly "the artifact exists
    and its size is greater than zero".  Any existing file of non-zero
    size, whatever its bytes, makes the fetch return Success at once with
    the index recorded Downloaded and the trace unchanged (no network
    call); an existing zero-byte file, like a missing one, does not
    short-circuit: the fetch goes on to a stream request for the segment. *)
Theorem short_circuit_exactly_nonzero_size cfg w seg r st :
  (segment_on_disk seg st = true ↔ ∃ f, files st !! seg = Some f ∧ 0 < st_size f)
  ∧ (∀ f, files st !! seg = Some f → 0 < st_size f →
       download_segment cfg w seg r st = (true, add_downloaded seg st)
       ∧ seg ∈ downloaded_segments (download_segment cfg w seg r st).2
       ∧ trace (download_segment cfg w seg r st).2 = trace st)
  ∧ (∀ f, files st !! seg = Some f → st_size f = 0 →
       ∃ evs, trace (download_segment cfg w seg r st).2
              = trace st ++ ReqStream seg :: evs)
  ∧ (files st !! seg = None →
       ∃ evs, trace (download_segment cfg w seg r st).2
              = trace st ++ ReqStream seg :: evs).
Proof.
  split; [apply segment_on_disk_spec|]. repeat split.
  - apply fetch_on_disk, segment_on_disk_spec. eauto.
  - rewrite fetch_on_disk by (apply segment_on_disk_spec; eauto).
    simpl. set_solver.
  - rewrite fetch_on_disk by (apply segment_on_disk_spec; eauto). done.
  - intros f Hf Hz. apply fetch_not_on_disk_requests.
    unfold segment_on_disk. rewrite Hf. apply bool_decide_eq_false. lia.
  - intros Hf. apply fetch_not_on_disk_requests.
    unfold segment_on_disk. by rewrite Hf.
Qed.

Lemma short_circuit_exactly_nonzero_size_witness :
  files st_seg7_empty !! 7 = Some {| data := []; readable := true |}
  ∧ st_size {| data := []; readable := true |} = 0
  ∧ ∃ evs, trace (download_segment config w_down 7 0 st_seg7_empty).2
           = trace st_seg7_empty ++ ReqStream 7 :: evs.
Proof.
  split; [reflexivity|]. split; [reflexivity|].
  destruct (short_circuit_exactly_nonzero_size config w_down 7 0 st_seg7_empty)
    as (_ & _ & Hzero & _).
  apply (Hzero {| data := []; readable := true |}); reflexivity.
Defined.




(** ** StatusProbe *)





(** ** ConcurrencyCoordinator *)

(** C5. When the backend reports the indices [A ∪ B] as ready and [B] is
    the set of indices already Downloaded, every index the dispatcher
    submits to the pool lies in [A ∖ B] and is not Failed, stream
    requests are made for submitted indices only, and without a limit on
    the number of segments every index of [A ∖ B] that is not Failed is
    submitted. *)
Theorem dispatch_only_fetches_new cfg w (A B : gset Z) m st :
  downloaded_segments st = B →
  list_to_set (probe_ready w st) = A ∪ B →
  let to_download := to_download_of (probe_ready w st) m st in
  let st' := (download_available_segments cfg w m st).2 in
  (∀ seg, seg ∈ to_download → seg ∈ A ∖ B ∧ seg ∉ failed_segments st)
  ∧ (∀ seg, stream_requests seg (trace st') ≠ stream_requests seg (trace st) →
       seg ∈ to_download)
  ∧ (m = None → ∀ seg, seg ∈ A ∖ B → seg ∉ failed_segments st → seg ∈ to_download).
Proof.
  intros HB HA to_download st'. split; [|split].
  - intros seg Hseg. apply to_download_of_elem in Hseg as [Hin [Hd Hf]].
    split; [|done].
    assert (seg ∈ A ∪ B) by (rewrite <- HA; set_solver). set_solver.
  - intros seg Hreq. destruct (decide (seg ∈ to_download)) as [|Hn]; [done|].
    destruct Hreq. by apply dispatch_requests.
  - intros -> seg Hseg Hf. apply to_download_of_unlimited.
    assert (seg ∈ A ∪ B) as Hin by set_solver.
    rewrite <- HA in Hin. split; [set_solver|]. split; set_solver.
Qed.

Lemma dispatch_only_fetches_new_witness :
  let st := (download_available_segments config w_two_rounds None (init_state ∅)).2 in
  downloaded_segments st = {[0]}
  ∧ list_to_set (probe_ready w_two_rounds st) = ({[1]} ∪ {[0]} : gset Z)
  ∧ (∀ seg, seg ∈ to_download_of (probe_ready w_two_rounds st) None st →
       seg ∈ ({[1]} ∖ {[0]} : gset Z) ∧ seg ∉ failed_segments st).
Proof.
  intros st.
  assert (downloaded_segments st = {[0]}) as HB by (vm_compute; reflexivity).
  assert (list_to_set (probe_ready w_two_rounds st) = ({[1]} ∪ {[0]} : gset Z)) as HA
    by (vm_compute; reflexivity).
  split; [exact HB|]. split; [exact HA|].
  exact (proj1 (dispatch_only_fetches_new config w_two_rounds {[1]} {[0]} None st HB HA)).
Defined.

(** The list returned by a round that submitted something holds indices
    of that round only: each of them was pending when the round began. *)
Lemma run_fetches_successes cfg w l st seg :
  seg ∈ (run_fetches cfg w l st).1 → seg ∈ l.
Proof.
  revert st. induction l as [|s l IH]; intros st; simpl; [done|].
  destruct (download_segment cfg w s 0 st) as [ok st1].
  specialize (IH st1). destruct (run_fetches cfg w l st1) as [succ st2].
  simpl in *. destruct ok; set_solver.
Qed.

Lemma sorted_elem (l : list Z) x : x ∈ sorted l ↔ x ∈ l.
Proof. unfold sorted. by rewrite merge_sort_Permutation. Qed.

Lemma dispatch_result_round_only cfg w m st l seg :
  to_download_of (probe_ready w st) m st ≠ [] →
  (download_available_segments cfg w m st).1 = inr l →
  seg ∈ l → pending st seg.
Proof.
  intros Hne. rewrite download_available_segments_eq.
  destruct (get_segment_status w st).1; [done|].
  destruct (probe_ready w st) as [|a rdy] eqn:Hr.
  { simpl. intros [= <-]. by intros ?%elem_of_nil. }
  cbv zeta. destruct (to_download_of (a :: rdy) m st) as [|hd tl] eqn:Ht; [done|].
  case_bool_decide; [done|].
  change (@inr exn _ (sorted (run_fetches cfg w (hd :: tl) (log ReqStatus st)).1)
          = inr l → seg ∈ l → pending st seg).
  rewrite <- Ht. intros [= <-] Hseg%sorted_elem%run_fetches_successes.
  by apply to_download_of_elem in Hseg as [_ Hp].
Qed.

(** C2.  Two rounds of the dispatcher: the first downloads index 0, the
    second finds indices 0 and 1 ready, downloads index 1 and returns
    [[1]], the successes of that round, although indices 0 and 1 are both
    Downloaded by then. *)
Theorem dispatch_returns_round_successes :
  let r1 := download_available_segments config w_two_rounds None (init_state ∅) in
  let r2 := download_available_segments config w_two_rounds None r1.2 in
  r1.1 = inr [0]
  ∧ r2.1 = inr [1]
  ∧ sorted (elements (downloaded_segments r2.2)) = [0; 1].
Proof. vm_compute. by repeat split. Qed.

(** ** MonitorLoop *)

(** C3.  With a backend that has one more segment ready at each cycle,
    the second cycle downloads index 1, yet the stagnation counter goes
    from 0 to 1 instead of staying at zero; after eleven cycles, each of
    which downloaded a new index, the loop stops as Stagnant. *)
Theorem progress_counted_as_stagnation :
  let c0 := {| last_segment_count := 0; no_new_segments_count := 0 |} in
  let r1 := monitor_cycle config w_progressive c0 (init_state ∅) in
  let r2 := monitor_cycle config w_progressive r1.1.2 r1.2 in
  r1.1.2 = {| last_segment_count := 1; no_new_segments_count := 0 |}
  ∧ elements (downloaded_segments r1.2) = [0]
  ∧ sorted (elements (downloaded_segments r2.2)) = [0; 1]
  ∧ r2.1.2 = {| last_segment_count := 1; no_new_segments_count := 1 |}
  ∧ (monitor_and_download config w_progressive 20 300 (init_state ∅)).1
    = Some (Stagnant, [0; 1; 2; 3; 4; 5; 6; 7; 8; 9; 10]).
Proof. vm_compute. by repeat split. Qed.

(** C1.  A body that breaks after its first byte leaves that byte on
    disk.  When it is the last attempt, the fetch returns Failure with
    the file in place; when it is the first attempt, the retry finds the
    file, makes no request and returns Success for it.  A body that
    breaks before its first byte leaves an empty file behind a Failure. *)
Theorem aborted_body_leaves_file :
  (let res := download_segment config w_abort_last 5 0 (init_state ∅) in
   res.1 = false
   ∧ files res.2 !! 5 = Some {| data := [Byte.x61]; readable := true |}
   ∧ elements (failed_segments res.2) = [5])
  ∧ (let res := download_segment config w_abort_first 5 0 (init_state ∅) in
     res.1 = true
     ∧ files res.2 !! 5 = Some {| data := [Byte.x61]; readable := true |}
     ∧ trace res.2 = [ReqStream 5; Sleep 1])
  ∧ (let res := download_segment config w_abort_empty 5 0 (init_state ∅) in
     res.1 = false
     ∧ files res.2 !! 5 = Some {| data := []; readable := true |}).
Proof. vm_compute. by repeat split. Qed.

(** ** ChunkState *)

Lemma exclusive_exactly_one st :
  exclusive st ↔ ∀ seg, exactly_one_state st seg.
Proof.
  unfold exclusive, exactly_one_state. split.
  - intros Hex seg.
    destruct (decide (seg ∈ downloaded_segments st)) as [Hd|Hd];
      [|destruct (decide (seg ∈ failed_segments st)) as [Hf|Hf]].
    + exists Downloaded. split; [done|].
      intros [] Hs; simpl in Hs; [destruct Hs; done|done|set_solver].
    + exists Failed. split; [done|].
      intros [] Hs; simpl in Hs; [destruct Hs; done|done|done].
    + exists Pending. split; [done|].
      intros [] Hs; simpl in Hs; done.
  - intros Hone. apply elem_of_disjoint. intros seg Hd Hf.
    destruct (Hone seg) as (s & _ & Huniq).
    pose proof (Huniq Downloaded Hd). pose proof (Huniq Failed Hf). congruence.
Qed.

Lemma monitor_and_download_state cfg w fuel max_wait_time st :
  (monitor_and_download cfg w fuel max_wait_time st).2
  = (monitor_loop cfg w fuel (clock w 0) max_wait_time 1
       {| last_segment_count := 0; no_new_segments_count := 0 |} st).2.
Proof.
  unfold monitor_and_download.
  by destruct (monitor_loop _ _ _ _ _ _ _ _) as [[[r|] c] st1].
Qed.

(** C9, as the code has it.  Provided no status answer lists an index
    twice, a session that starts with disjoint tracking sets keeps them
    disjoint after every dispatch round and after any number of monitor
    cycles: every index is recorded in exactly one state.  Downloaded and
    Failed are final: an index in one of the sets stays in it, and no
    stream request is made for an index that is in the Failed set. *)
Theorem session_states_exclusive cfg w st :
  ready_lists_nodup w → exclusive st →
  (∀ m, let st' := (download_available_segments cfg w m st).2 in
        (∀ seg, exactly_one_state st' seg) ∧ extends st st')
  ∧ (∀ fuel max_wait_time,
       let st' := (monitor_and_download cfg w fuel max_wait_time st).2 in
       (∀ seg, exactly_one_state st' seg)
       ∧ (∀ seg, seg ∈ downloaded_segments st → seg ∈ downloaded_segments st')
       ∧ (∀ seg, seg ∈ failed_segments st →
            seg ∈ failed_segments st'
            ∧ stream_requests seg (trace st') = stream_requests seg (trace st))).
Proof.
  intros Hw Hex. split.
  - intros m st'. split; [|apply dispatch_extends].
    by apply exclusive_exactly_one, dispatch_exclusive.
  - intros fuel max_wait_time st'. subst st'.
    rewrite monitor_and_download_state.
    destruct (monitor_loop_extends cfg w fuel (clock w 0) max_wait_time 1
                {| last_segment_count := 0; no_new_segments_count := 0 |} st)
      as (Hd & Hf & Hreq).
    split; [by apply exclusive_exactly_one, monitor_loop_exclusive|].
    split; [set_solver|]. intros seg Hseg. split; [set_solver|].
    apply Hreq. intros [_ Hnf]. done.
Qed.

Lemma w_two_rounds_nodup : ready_lists_nodup w_two_rounds.
Proof.
  intros n r t. simpl. destruct (n =? 0)%nat; intros [= <- _].
  - apply NoDup_singleton.
  - apply NoDup_cons. split; [set_solver|apply NoDup_singleton].
Qed.

Lemma session_states_exclusive_witness :
  ready_lists_nodup w_two_rounds
  ∧ exclusive (init_state ∅)
  ∧ ∀ seg, exactly_one_state
             (monitor_and_download config w_two_rounds 3 300 (init_state ∅)).2 seg.
Proof.
  assert (exclusive (init_state ∅)) as Hex by (unfold exclusive; simpl; set_solver).
  split; [exact w_two_rounds_nodup|]. split; [exact Hex|].
  exact (proj1 (proj2 (session_states_exclusive config w_two_rounds (init_state ∅)
                         w_two_rounds_nodup Hex) 3%nat 300)).
Defined.

(** C9, as stated, fails when an answer lists an index twice: both
    fetches of index 1 are submitted (here to a pool of one worker, which
    runs them in turn), the first exhausts its retries and records the
    index Failed, the second succeeds and records it Downloaded. *)
Lemma duplicate_ready_breaks_exclusivity :
  let st' := (download_available_segments config_one_worker w_duplicate None (init_state ∅)).2 in
  1 ∈ downloaded_segments st' ∧ 1 ∈ failed_segments st'
  ∧ ¬ exactly_one_state st' 1.
Proof.
  intros st'.
  assert (downloaded_segments st' = {[1]}) as Hd by (vm_compute; reflexivity).
  assert (failed_segments st' = {[1]}) as Hf by (vm_compute; reflexivity).
  split; [set_solver|]. split; [set_solver|].
  intros (s & _ & Huniq).
  assert (1 ∈ downloaded_segments st') as H1 by set_solver.
  assert (1 ∈ failed_segments st') as H2 by set_solver.
  pose proof (Huniq Downloaded H1). pose proof (Huniq Failed H2). congruence.
Qed.

(** ** Assembler *)

(** The copy loop either copies everything, or stops at the first segment
    it cannot read, leaving what it copied before. *)
Lemma copy_segments_spec segs st : ∀ acc,
  match copy_segments segs acc st with
  | (None, out) =>
      out = acc ++ segments_bytes st segs ∧ ∀ seg, seg ∈ segs → ¬ unreadable st seg
  | (Some _, out) =>
      ∃ copied seg rest,
        segs = copied ++ seg :: rest ∧ unreadable st seg
        ∧ (∀ s, s ∈ copied → ¬ unreadable st s)
        ∧ out = acc ++ segments_bytes st copied
  end.
Proof.
  induction segs as [|seg segs IH]; intros acc; simpl.
  { split; [by rewrite app_nil_r|]. by intros seg ?%elem_of_nil. }
  destruct (files st !! seg) as [f|] eqn:Hf.
  - destruct (readable f) eqn:Hr.
    + assert (¬ unreadable st seg) as Hok.
      { intros Hu. specialize (Hu f Hf). congruence. }
      specialize (IH (acc ++ data f)).
      destruct (copy_segments segs (acc ++ data f) st) as [[e|] out].
      * destruct IH as (copied & s & rest & -> & Hu & Hc & ->).
        exists (seg :: copied), s, rest. repeat split; [done| |].
        -- intros s' [->|Hs']%elem_of_cons; [done|by apply Hc].
        -- unfold segments_bytes. simpl. rewrite Hf. by rewrite <- app_assoc.
      * destruct IH as (-> & Hall). split.
        -- unfold segments_bytes. simpl. rewrite Hf. by rewrite <- app_assoc.
        -- intros s' [->|Hs']%elem_of_cons; [done|by apply Hall].
    + exists [], seg, segs. repeat split.
      * intros f' Hf'. congruence.
      * by intros s ?%elem_of_nil.
      * by rewrite app_nil_r.
  - exists [], seg, segs. repeat split.
    + intros f' Hf'. congruence.
    + by intros s ?%elem_of_nil.
    + by rewrite app_nil_r.
Qed.

Lemma combine_simple_failure w segs st :
  simple_io_failure w segs st → (_combine_simple w segs st).1 = false.
Proof.
  unfold _combine_simple. intros [Ho|(seg & Hin & Hu)].
  - by rewrite Ho.
  - destruct (output_openable w); [|done].
    pose proof (copy_segments_spec segs st []) as H.
    destruct (copy_segments segs [] st) as [[e|] out]; [done|].
    destruct H as (_ & Hall). by destruct (Hall seg Hin).
Qed.

Lemma combine_ffmpeg_failure w segs st :
  ffmpeg_io_failure w segs → (_combine_with_ffmpeg w segs st).1 = false.
Proof.
  unfold _combine_with_ffmpeg, ffmpeg_io_failure. intros Hf.
  destruct (ffmpeg_run w segs) as [|ok written]; [done|].
  destruct ok; [|done]. by destruct (Hf written).
Qed.

(** What the simple path leaves at the output path. *)
Lemma combine_simple_output w segs st :
  (output_openable w = false →
     output_file (_combine_simple w segs st).2 = output_file st)
  ∧ (output_openable w = true → (_combine_simple w segs st).1 = false →
       ∃ copied seg rest,
         segs = copied ++ seg :: rest ∧ unreadable st seg
         ∧ (∀ s, s ∈ copied → ¬ unreadable st s)
         ∧ output_file (_combine_simple w segs st).2
           = Some (segments_bytes st copied)).
Proof.
  unfold _combine_simple. split; intros Ho; rewrite Ho; [done|].
  pose proof (copy_segments_spec segs st []) as H.
  destruct (copy_segments segs [] st) as [[e|] out]; [|done].
  intros _. destruct H as (copied & seg & rest & -> & Hu & Hc & ->).
  by exists copied, seg, rest.
Qed.

(** C8, as the code has it.  Any I/O failure on the path that a combine
    invocation takes is reported as Failure.  The output is not created
    when it cannot be opened; once it is open nothing is removed on
    failure, and the simple path leaves in it the segments copied before
    the first one that could not be read: the segment files split into
    the ones copied, all of them readable, the first unreadable one, and
    the rest. *)
Theorem combine_failure_reported w use_ffmpeg st :
  let segment_files := existing_segment_files st in
  let res := combine_segments w use_ffmpeg st in
  (if use_ffmpeg && _has_ffmpeg w
   then ffmpeg_io_failure w segment_files
   else simple_io_failure w segment_files st) →
  res.1 = false
  ∧ (use_ffmpeg && _has_ffmpeg w = false → output_openable w = false →
       output_file res.2 = output_file st)
  ∧ (use_ffmpeg && _has_ffmpeg w = false → output_openable w = true →
       ∃ copied seg rest,
         segment_files = copied ++ seg :: rest ∧ unreadable st seg
         ∧ (∀ s, s ∈ copied → ¬ unreadable st s)
         ∧ output_file res.2 = Some (segments_bytes st copied)).
Proof.
  intros segment_files res Hfail. subst res. unfold combine_segments.
  fold segment_files.
  destruct (elements (downloaded_segments st)) as [|d ds] eqn:Hel.
  { assert (segment_files = []) as Hnil.
    { unfold segment_files, existing_segment_files. by rewrite Hel. }
    rewrite Hnil in *. simpl. split; [done|]. split; [done|].
    intros Hpath Ho. rewrite Hpath in Hfail.
    destruct Hfail as [Hf|(seg & Hin & _)]; [congruence|].
    by apply elem_of_nil in Hin. }
  destruct segment_files as [|s0 segs] eqn:Hsegs.
  { simpl. split; [done|]. split; [done|].
    intros Hpath Ho. rewrite Hpath in Hfail.
    destruct Hfail as [Hf|(seg & Hin & _)]; [congruence|].
    by apply elem_of_nil in Hin. }
  destruct (use_ffmpeg && _has_ffmpeg w) eqn:Hpath.
  - split; [by apply combine_ffmpeg_failure|]. by split.
  - split; [by apply combine_simple_failure|].
    destruct (combine_simple_output w (s0 :: segs) st) as [Hclosed Hopen].
    split; [by intros _|]. intros _ Ho. apply Hopen; [done|].
    by apply combine_simple_failure.
Qed.

Lemma combine_failure_reported_witness :
  simple_io_failure w_down (existing_segment_files st_unreadable) st_unreadable
  ∧ (combine_segments w_down false st_unreadable).1 = false.
Proof.
  assert (simple_io_failure w_down (existing_segment_files st_unreadable) st_unreadable)
    as H.
  { right. exists 1. split.
    - vm_compute. apply list_elem_of_In. right. left. reflexivity.
    - intros f. vm_compute. intros [= <-]. reflexivity. }
  split; [exact H|].
  exact (proj1 (combine_failure_reported w_down false st_unreadable H)).
Defined.

(** C8, as stated, fails: with the file of segment 1 unreadable, the
    simple path reports Failure and leaves an output file holding the
    bytes of segment 0, where there was no output file before. *)
Lemma combine_leaves_partial_output :
  let res := combine_segments w_down false st_unreadable in
  res.1 = false
  ∧ output_file st_unreadable = None
  ∧ output_file res.2 = Some [Byte.x61].
Proof. vm_compute. by repeat split. Qed.

(** ** What holds of the guarantees that the code misses in one case *)

(** X5. When no body is cut in the middle, a fetch of a segment that has no
    file yet ends with a non-empty file and Success, or with no file and
    Failure. *)
Lemma fetch_guarantee_when_bodies_complete cfg w seg r st :
  (∀ k, body_complete (stream_response w seg k)) →
  files st !! seg = None →
  let res := download_segment cfg w seg r st in
  (res.1 = true → segment_on_disk seg res.2 = true)
  ∧ (res.1 = false → files res.2 !! seg = None).
Proof.
  intros Hw. revert r st.
  assert (∀ st, files st !! seg = None →
    let '(e, st1) := try_download w seg st in
    match e with
    | None => segment_on_disk seg st1 = true
    | Some _ => files st1 !! seg = None
    end) as Htry.
  { intros st Hf. unfold try_download.
    pose proof (Hw (stream_requests seg (trace st))) as Hc.
    destruct (stream_response w seg _) as [| |cl chunks aborts]; simpl; [done..|].
    rewrite (Hc cl chunks aborts eq_refl).
    destruct cl; simpl; [| |done];
      (case_bool_decide as Hz; simpl;
       [apply lookup_delete_eq
       |unfold segment_on_disk; simpl; rewrite lookup_insert_eq;
        apply bool_decide_eq_true; unfold st_size in *; simpl in *; lia]). }
  apply (download_segment_cases cfg w seg
           (λ _ st res, files st !! seg = None →
              (res.1 = true → segment_on_disk seg res.2 = true)
              ∧ (res.1 = false → files res.2 !! seg = None))).
  - intros _ st Hd Hf. unfold segment_on_disk in Hd. by rewrite Hf in Hd.
  - intros _ st st1 _ Ht Hf. specialize (Htry st Hf). rewrite Ht in Htry.
    by split.
  - intros r st e st1 _ Ht _ IH Hf. specialize (Htry st Hf). rewrite Ht in Htry.
    by apply IH.
  - intros r st e st1 _ Ht _ Hf. specialize (Htry st Hf). rewrite Ht in Htry.
    by split.
Qed.

Section Stagnation.

Context (cfg : Config) (w : World).
Hypothesis Hquiet : ∀ n, nothing_ready (status_response w n).

Lemma quiet_probe st :
  ∃ status, get_segment_status w st = (inr status, log ReqStatus st)
            ∧ ready status = [] ∧ (∀ z, total status = Some z → 0 ≤ z).
Proof.
  unfold get_segment_status, status_try.
  destruct (Hquiet (status_requests (trace st)))
    as [[-> | [-> | ->]] | (rdy & t & -> & Hr & Ht)];
    try (by exists empty_status).
  by exists {| ready := default [] rdy; total := t |}.
Qed.

(** A cycle in which nothing is ready and nothing is Downloaded only
    advances the stagnation counter. *)
Lemma quiet_cycle c st :
  downloaded_segments st = ∅ → 0 ≤ last_segment_count c →
  ∃ st1,
    monitor_cycle cfg w c st
    = (if bool_decide (no_new_segments_count c + 1 >= 10)
       then Break Stagnant else Continue,
       {| last_segment_count := last_segment_count c;
          no_new_segments_count := no_new_segments_count c + 1 |},
       st1)
    ∧ downloaded_segments st1 = ∅
    ∧ status_requests (trace st1) = (status_requests (trace st) + 2)%nat.
Proof.
  intros Hd Hlast. unfold monitor_cycle, download_available_segments.
  destruct (quiet_probe st) as (s1 & -> & Hr1 & _). rewrite Hr1.
  destruct (quiet_probe (log ReqStatus st)) as (s2 & -> & _ & Ht2).
  assert (update_counters [] c
          = {| last_segment_count := last_segment_count c;
               no_new_segments_count := no_new_segments_count c + 1 |}) as ->.
  { unfold update_counters, len. simpl. rewrite bool_decide_eq_false_2; [done|lia]. }
  assert (all_downloaded s2 (log ReqStatus (log ReqStatus st)) = false) as ->.
  { unfold all_downloaded. simpl. rewrite Hd, elements_empty.
    destruct (total s2) as [t|] eqn:Ht; [|done]. specialize (Ht2 t eq_refl).
    unfold len. simpl. case_bool_decide; [|done].
    rewrite bool_decide_eq_false_2; [done|lia]. }
  simpl. case_bool_decide; eexists; (split; [reflexivity|]); simpl;
    (split; [done|]); rewrite !status_requests_app; unfold status_requests; simpl; lia.
Qed.

Lemma quiet_loop n : ∀ fuel start_time max_wait_time k c st,
  Z.to_nat (10 - no_new_segments_count c) = n → (1 ≤ n)%nat →
  (n ≤ fuel)%nat →
  downloaded_segments st = ∅ → 0 ≤ last_segment_count c →
  (∀ j, (k ≤ j < k + n)%nat → clock w j - start_time < max_wait_time) →
  ∃ c1 st1,
    monitor_loop cfg w fuel start_time max_wait_time k c st = (Some Stagnant, c1, st1)
    ∧ downloaded_segments st1 = ∅
    ∧ status_requests (trace st1) = (status_requests (trace st) + 2 * n)%nat.
Proof.
  induction n as [|n IH]; intros fuel start_time max_wait_time k c st Hn H1 Hfuel Hd Hl Hclock;
    [lia|].
  destruct fuel as [|fuel]; [lia|]. simpl.
  rewrite bool_decide_eq_true_2 by (apply Hclock; lia).
  destruct (quiet_cycle c st Hd Hl) as (st1 & -> & Hd1 & Hreq1).
  case_bool_decide as Hstop.
  - exists {| last_segment_count := last_segment_count c;
              no_new_segments_count := no_new_segments_count c + 1 |}, st1.
    repeat split; [done|]. rewrite Hreq1. lia.
  - destruct (IH fuel start_time max_wait_time (S k)
                {| last_segment_count := last_segment_count c;
                   no_new_segments_count := no_new_segments_count c + 1 |} st1)
      as (c2 & st2 & -> & Hd2 & Hreq2); simpl; try done; try lia.
    { intros j Hj. apply Hclock. lia. }
    exists c2, st2. repeat split; [done|]. rewrite Hreq2, Hreq1. lia.
Qed.

(** X10. With a backend that never has anything ready, a fresh session stops
    as Stagnant after ten cycles (twenty status requests), as long as the
    clock stays under the wall-clock bound for these ten cycles. *)
Lemma stagnation_stop fuel max_wait_time st :
  downloaded_segments st = ∅ → (10 ≤ fuel)%nat →
  (∀ j, (1 ≤ j ≤ 10)%nat → clock w j - clock w 0 < max_wait_time) →
  (monitor_and_download cfg w fuel max_wait_time st).1 = Some (Stagnant, [])
  ∧ status_requests (trace (monitor_and_download cfg w fuel max_wait_time st).2)
    = (status_requests (trace st) + 20)%nat.
Proof.
  intros Hd Hfuel Hclock. unfold monitor_and_download.
  destruct (quiet_loop 10 fuel (clock w 0) max_wait_time 1
              {| last_segment_count := 0; no_new_segments_count := 0 |} st)
    as (c1 & st1 & -> & Hd1 & Hreq); simpl; try done; try lia.
  { intros j Hj. apply Hclock. lia. }
  simpl. rewrite Hd1, elements_empty. split; [done|]. rewrite Hreq. lia.
Qed.

End Stagnation.

(** * Further properties of the code *)

(** ** ChunkFetcher *)

(** What the [try] block leaves in the segment's file, by answer. *)
Lemma try_download_file w seg st :
  match stream_response w seg (stream_requests seg (trace st)) with
  | StreamTransportError | StreamHttpError | StreamOk CLInvalid _ _ =>
      ∃ e, try_download w seg st = (Some e, log (ReqStream seg) st)
  | StreamOk _ chunks true =>
      ∃ st1, try_download w seg st = (Some RequestException, st1)
             ∧ files st1 !! seg = Some {| data := received chunks; readable := true |}
  | StreamOk _ chunks false =>
      if bool_decide (received chunks = [])
      then ∃ st1, try_download w seg st = (Some SegmentDownloadError, st1)
                  ∧ files st1 !! seg = None
      else ∃ st1, try_download w seg st = (None, st1)
                  ∧ files st1 !! seg = Some {| data := received chunks; readable := true |}
  end.
Proof.
  unfold try_download, received.
  destruct (stream_response w seg _) as [| |cl chunks aborts]; [by eexists..|].
  set (bytes := concat _).
  assert (bool_decide (st_size {| data := bytes; readable := true |} = 0)
          = bool_decide (bytes = [])) as Hsz.
  { apply bool_decide_ext. unfold st_size. simpl. destruct bytes; simpl; [done|].
    split; [lia|done]. }
  destruct cl; [| |by eexists]; destruct aborts; simpl; rewrite ?Hsz.
  - eexists; split; [reflexivity|]. simpl. by rewrite lookup_insert_eq.
  - destruct (bool_decide (bytes = [])); eexists; (split; [reflexivity|]); simpl.
    + by rewrite lookup_delete_eq.
    + by rewrite lookup_insert_eq.
  - eexists; split; [reflexivity|]. simpl. by rewrite lookup_insert_eq.
  - destruct (bool_decide (bytes = [])); eexists; (split; [reflexivity|]); simpl.
    + by rewrite lookup_delete_eq.
    + by rewrite lookup_insert_eq.
Qed.

Lemma try_download_success_on_disk w seg st st1 :
  try_download w seg st = (None, st1) → segment_on_disk seg st1 = true.
Proof.
  intros Ht. pose proof (try_download_file w seg st) as H.
  assert (∀ chunks,
    (if bool_decide (received chunks = [])
     then ∃ s, try_download w seg st = (Some SegmentDownloadError, s)
               ∧ files s !! seg = None
     else ∃ s, try_download w seg st = (None, s)
               ∧ files s !! seg = Some {| data := received chunks; readable := true |}) →
    segment_on_disk seg st1 = true) as Hwhole.
  { intros chunks Hc. case_bool_decide as Hne; destruct Hc as (s & H1 & H2);
      [congruence|].
    rewrite Ht in H1. injection H1 as <-.
    unfold segment_on_disk. rewrite H2. apply bool_decide_eq_true.
    unfold st_size. simpl. destruct (received chunks); [done|simpl; lia]. }
  destruct (stream_response w seg _) as [| |cl chunks aborts].
  - destruct H as (e & He). congruence.
  - destruct H as (e & He). congruence.
  - destruct cl; destruct aborts;
      try (destruct H as (e & He); congruence);
      try (destruct H as (s & He & _); congruence);
      by apply (Hwhole chunks).
Qed.

(** X1. Whatever the backend answers, a fetch that returns Success
    leaves a non-empty file for its segment on disk and the index in the
    Downloaded set; a fetch that returns Failure leaves the index in the
    Failed set. *)
Theorem fetch_success_means_on_disk cfg w seg r st :
  let res := download_segment cfg w seg r st in
  (res.1 = true →
     segment_on_disk seg res.2 = true ∧ seg ∈ downloaded_segments res.2
     ∧ failed_segments res.2 = failed_segments st)
  ∧ (res.1 = false →
       seg ∈ failed_segments res.2
       ∧ downloaded_segments res.2 = downloaded_segments st).
Proof.
  simpl. destruct (download_segment_effect cfg w seg r st) as [Hd Hf _ _ _ _].
  split; intros Hres; rewrite Hres in Hd, Hf.
  - split; [|split; [rewrite Hd; set_solver|done]].
    clear Hd Hf. revert r st Hres.
    apply (download_segment_cases cfg w seg
             (λ _ _ res, res.1 = true → segment_on_disk seg res.2 = true)).
    + intros _ st Hdisk _. simpl.
      by rewrite (segment_on_disk_files seg st (add_downloaded seg st)).
    + intros _ st st1 _ Ht _. by eapply try_download_success_on_disk.
    + intros r st e st1 _ _ _ IH. exact IH.
    + done.
  - split; [rewrite Hf; set_solver|done].
Qed.

(** No fetch makes more stream requests than [MAX_RETRIES + 1] minus the
    attempt number it starts from. *)
Lemma fetch_request_bound_from cfg w seg r st :
  r ≤ MAX_RETRIES cfg →
  (stream_requests seg (trace (download_segment cfg w seg r st).2)
   ≤ stream_requests seg (trace st) + Z.to_nat (MAX_RETRIES cfg - r + 1))%nat.
Proof.
  revert r st.
  apply (download_segment_cases cfg w seg
           (λ r st res, r ≤ MAX_RETRIES cfg →
              (stream_requests seg (trace res.2)
               ≤ stream_requests seg (trace st) + Z.to_nat (MAX_RETRIES cfg - r + 1))%nat)).
  - intros r st _ _. simpl. lia.
  - intros r st st1 _ Ht Hr. pose proof (try_download_effect w seg st) as H.
    rewrite Ht in H. destruct H as (Htr & _). simpl. rewrite Htr.
    rewrite stream_requests_app. unfold stream_requests at 2.
    rewrite filter_cons, decide_True by done. simpl. lia.
  - intros r st e st1 _ Ht Hlt IH _. pose proof (try_download_effect w seg st) as H.
    rewrite Ht in H. destruct H as (Htr & _).
    etrans; [apply IH; lia|]. simpl. rewrite Htr.
    rewrite !stream_requests_app. unfold stream_requests at 2 3.
    rewrite !filter_cons, decide_True, decide_False by done. simpl. lia.
  - intros r st e st1 _ Ht _ Hr. pose proof (try_download_effect w seg st) as H.
    rewrite Ht in H. destruct H as (Htr & _). simpl. rewrite Htr.
    rewrite stream_requests_app. unfold stream_requests at 2.
    rewrite filter_cons, decide_True by done. simpl. lia.
Qed.

(** X2. Whatever the backend answers, a fetch started by the dispatcher
    (attempt number 0) makes at most [MAX_RETRIES + 1] stream requests. *)
Theorem fetch_request_bound cfg w seg st :
  0 ≤ MAX_RETRIES cfg →
  (stream_requests seg (trace (download_segment cfg w seg 0 st).2)
   ≤ stream_requests seg (trace st) + Z.to_nat (MAX_RETRIES cfg + 1))%nat.
Proof.
  intros Hmax. pose proof (fetch_request_bound_from cfg w seg 0 st Hmax) as H.
  by replace (MAX_RETRIES cfg - 0 + 1) with (MAX_RETRIES cfg + 1) in H by lia.
Qed.

Lemma fetch_request_bound_witness :
  0 ≤ MAX_RETRIES config
  ∧ (stream_requests 5 (trace (download_segment config w_abort_last 5 0 (init_state ∅)).2)
     ≤ stream_requests 5 (trace (init_state ∅)) + Z.to_nat (MAX_RETRIES config + 1))%nat.
Proof.
  assert (0 ≤ MAX_RETRIES config) as H by (simpl; lia).
  split; [exact H|].
  exact (fetch_request_bound config w_abort_last 5 (init_state ∅) H).
Defined.

(** X3. A fetch touches nothing but its own segment: the files of the
    other segments, the output file and the manifest are as before, no
    status request is made, and the number of stream requests made for
    any other segment does not change. *)
Theorem fetch_touches_only_own_segment cfg w seg r st :
  let st' := (download_segment cfg w seg r st).2 in
  (∀ s, s ≠ seg → files st' !! s = files st !! s)
  ∧ output_file st' = output_file st
  ∧ list_file st' = list_file st
  ∧ status_requests (trace st') = status_requests (trace st)
  ∧ (∀ s, s ≠ seg → stream_requests s (trace st') = stream_requests s (trace st)).
Proof.
  simpl. destruct (download_segment_effect cfg w seg r st)
    as [_ _ Hfs Ho Hl (evs & Htr & Hall)].
  split; [done|]. split; [done|]. split; [done|]. split.
  - rewrite Htr, status_requests_app.
    assert (status_requests evs = 0%nat) as ->; [|lia].
    clear Htr. induction Hall as [|e evs He _ IH]; [done|].
    unfold status_requests in *. rewrite filter_cons.
    destruct (decide (e = ReqStatus)) as [->|]; [|done].
    destruct He as [He|[d He]]; congruence.
  - intros s Hs. rewrite Htr, stream_requests_app.
    rewrite (fetch_events_other_requests seg s evs); [lia|done..].
Qed.

(** A fetch all of whose answers are whole but empty bodies. *)
Lemma empty_body_fetch_from cfg w seg n : ∀ r st,
  Z.to_nat (MAX_RETRIES cfg - r) = n → r ≤ MAX_RETRIES cfg →
  (∀ k, empty_body (stream_response w seg k)) →
  segment_on_disk seg st = false →
  let res := download_segment cfg w seg r st in
  res.1 = false
  ∧ trace res.2 = trace st ++ backoff_trace seg r n
  ∧ files res.2 !! seg = None.
Proof.
  assert (∀ st, (∀ k, empty_body (stream_response w seg k)) →
            ∃ st1, try_download w seg st = (Some SegmentDownloadError, st1)
                   ∧ files st1 !! seg = None
                   ∧ trace st1 = trace st ++ [ReqStream seg]) as Htry.
  { intros st Hw. pose proof (try_download_file w seg st) as H.
    pose proof (try_download_effect w seg st) as He.
    destruct (Hw (stream_requests seg (trace st))) as (cl & chunks & Hr & Hcl & Hempty).
    rewrite Hr in H. rewrite bool_decide_eq_true_2 in H by done.
    assert (∃ st1, try_download w seg st = (Some SegmentDownloadError, st1)
                   ∧ files st1 !! seg = None) as (st1 & Ht & Hf)
      by (by destruct cl).
    rewrite Ht in He. destruct He as (Htr & _). eauto. }
  induction n as [|n IH]; intros r st Hn Hr Hw Hd; simpl;
    rewrite download_segment_eq, Hd;
    destruct (Htry st Hw) as (st1 & -> & Hf & Htr).
  - rewrite decide_False by lia. by simpl.
  - rewrite decide_True by lia.
    destruct (IH (r + 1) (sleep (2 ^ r) st1)) as (H1 & H2 & H3); [lia|lia|done| |].
    { unfold segment_on_disk. simpl. by rewrite Hf. }
    split; [done|]. split; [|done].
    rewrite H2. simpl. rewrite Htr. by rewrite <- !app_assoc.
Qed.

(** X4. Zero-byte guard.  When every answer for a segment is a 2xx
    answer with an empty body, a fetch of that segment makes
    [MAX_RETRIES + 1] requests with the backoff sleeps between them,
    returns Failure, records the index Failed, and leaves no file for the
    segment, not even an empty one that was there before. *)
Theorem empty_body_never_leaves_file cfg w seg st :
  0 ≤ MAX_RETRIES cfg →
  (∀ k, empty_body (stream_response w seg k)) →
  segment_on_disk seg st = false →
  let res := download_segment cfg w seg 0 st in
  res.1 = false
  ∧ trace res.2 = trace st ++ backoff_trace seg 0 (Z.to_nat (MAX_RETRIES cfg))
  ∧ files res.2 !! seg = None
  ∧ seg ∈ failed_segments res.2.
Proof.
  intros Hmax Hw Hd res.
  destruct (empty_body_fetch_from cfg w seg (Z.to_nat (MAX_RETRIES cfg)) 0 st)
    as (H1 & H2 & H3); [f_equal; lia|done..|].
  split; [done|]. split; [done|]. split; [done|].
  destruct (download_segment_effect cfg w seg 0 st) as [_ Hf _ _ _ _].
  subst res. simpl in H1. rewrite H1 in Hf. rewrite Hf. set_solver.
Qed.

Lemma empty_body_never_leaves_file_witness :
  0 ≤ MAX_RETRIES config
  ∧ (∀ k, empty_body (stream_response w_empty_bodies 7 k))
  ∧ segment_on_disk 7 st_seg7_empty = false
  ∧ files (download_segment config w_empty_bodies 7 0 st_seg7_empty).2 !! 7 = None.
Proof.
  assert (0 ≤ MAX_RETRIES config) as H0 by (simpl; lia).
  assert (∀ k, empty_body (stream_response w_empty_bodies 7 k)) as H1.
  { intros k. exists (CLInt 0), []. by repeat split. }
  assert (segment_on_disk 7 st_seg7_empty = false) as H2 by reflexivity.
  split; [exact H0|]. split; [exact H1|]. split; [exact H2|].
  destruct (empty_body_never_leaves_file config w_empty_bodies 7 st_seg7_empty H0 H1 H2)
    as (_ & _ & Hfile & _).
  exact Hfile.
Defined.

Lemma fetch_guarantee_when_bodies_complete_witness :
  (∀ k, body_complete (stream_response w_two_rounds 5 k))
  ∧ files (init_state ∅) !! 5 = None
  ∧ let res := download_segment config w_two_rounds 5 0 (init_state ∅) in
    (res.1 = true → segment_on_disk 5 res.2 = true)
    ∧ (res.1 = false → files res.2 !! 5 = None).
Proof.
  assert (∀ k, body_complete (stream_response w_two_rounds 5 k)) as H1.
  { intros k cl chunks aborts. simpl. unfold one_byte_ok. by intros [= _ _ <-]. }
  assert (files (init_state ∅) !! 5 = None) as H2 by reflexivity.
  split; [exact H1|]. split; [exact H2|].
  exact (fetch_guarantee_when_bodies_complete config w_two_rounds 5 0 (init_state ∅) H1 H2).
Defined.

(** ** Sessions: what the tracking sets say about the disk *)

Lemma downloaded_on_disk_same st st' :
  files st' = files st → downloaded_segments st' = downloaded_segments st →
  downloaded_on_disk st → downloaded_on_disk st'.
Proof.
  intros Hf Hd Hinv seg Hseg. rewrite Hd in Hseg.
  rewrite (segment_on_disk_files seg st st') by by rewrite Hf. by apply Hinv.
Qed.

Lemma fetch_keeps_on_disk cfg w seg r st :
  downloaded_on_disk st → downloaded_on_disk (download_segment cfg w seg r st).2.
Proof.
  intros Hinv s Hs.
  destruct (decide (s = seg)) as [->|Hne].
  - destruct (download_segment cfg w seg r st).1 eqn:Hres.
    + revert Hres. clear Hs. revert r st Hinv.
      apply (download_segment_cases cfg w seg
               (λ _ st res, downloaded_on_disk st → res.1 = true →
                            segment_on_disk seg res.2 = true)).
      * intros _ st Hdisk _ _. simpl.
        by rewrite (segment_on_disk_files seg st (add_downloaded seg st)).
      * intros _ st st1 _ Ht _ _. by eapply try_download_success_on_disk.
      * intros r st e st1 Hdisk Ht _ IH Hinv. apply IH.
        pose proof (try_download_effect w seg st) as H. rewrite Ht in H.
        destruct H as (_ & _ & Hd & _ & _ & Hfs). simpl in Hd.
        intros s Hs. simpl in Hs. rewrite Hd in Hs.
        destruct (decide (s = seg)) as [->|Hne].
        -- apply Hinv in Hs. congruence.
        -- unfold segment_on_disk. simpl. rewrite Hfs by done. by apply Hinv.
      * done.
    + destruct (download_segment_effect cfg w seg r st) as [Hd _ _ _ _ _].
      rewrite Hres in Hd. rewrite Hd in Hs. apply Hinv in Hs.
      rewrite download_segment_eq, Hs in Hres. done.
  - destruct (download_segment_effect cfg w seg r st) as [Hd _ Hfs _ _ _].
    rewrite (segment_on_disk_files s st) by by apply Hfs.
    apply Hinv. rewrite Hd in Hs.
    destruct (download_segment cfg w seg r st).1; set_solver.
Qed.

Lemma run_fetches_keeps_on_disk cfg w l st :
  downloaded_on_disk st → downloaded_on_disk (run_fetches cfg w l st).2.
Proof.
  revert st. induction l as [|s l IH]; intros st Hinv; simpl; [done|].
  pose proof (fetch_keeps_on_disk cfg w s 0 st Hinv) as H1.
  destruct (download_segment cfg w s 0 st) as [ok st1].
  specialize (IH st1 H1). by destruct (run_fetches cfg w l st1) as [succ st2].
Qed.

Lemma dispatch_keeps_on_disk cfg w m st :
  downloaded_on_disk st →
  downloaded_on_disk (download_available_segments cfg w m st).2.
Proof.
  intros Hinv. destruct (dispatch_state_cases cfg w m st) as [-> | ->]; [done|].
  by apply run_fetches_keeps_on_disk.
Qed.

Lemma monitor_cycle_keeps_on_disk cfg w c st :
  downloaded_on_disk st → downloaded_on_disk (monitor_cycle cfg w c st).2.
Proof.
  intros Hinv. pose proof (dispatch_keeps_on_disk cfg w None st Hinv) as Hd.
  by destruct (monitor_cycle_state_cases cfg w c st) as [-> | [-> | ->]].
Qed.

Lemma monitor_loop_keeps_on_disk cfg w fuel start_time max_wait_time k c st :
  downloaded_on_disk st →
  downloaded_on_disk (monitor_loop cfg w fuel start_time max_wait_time k c st).2.
Proof.
  revert k c st. induction fuel as [|fuel IH]; intros k c st Hinv; simpl; [done|].
  case_bool_decide; [|done].
  pose proof (monitor_cycle_keeps_on_disk cfg w c st Hinv) as Hc.
  destruct (monitor_cycle cfg w c st) as [[[| r | e] c1] st1]; simpl in *; [|done|];
    by apply IH.
Qed.

(** X6. In a session whose pool runs do not depend on the schedule (one
    worker at most, or no index listed twice in a status answer), every
    index recorded Downloaded has a non-empty file on disk: if that
    holds before a dispatch round or a monitor loop, it holds after it,
    whatever else the backend answers and however many cycles the loop
    runs. *)
Theorem session_downloaded_on_disk cfg w st :
  schedule_free cfg w →
  downloaded_on_disk st →
  (∀ m, downloaded_on_disk (download_available_segments cfg w m st).2)
  ∧ (∀ fuel max_wait_time,
       downloaded_on_disk (monitor_and_download cfg w fuel max_wait_time st).2).
Proof.
  intros _ Hinv. split.
  - intros m. by apply dispatch_keeps_on_disk.
  - intros fuel max_wait_time. rewrite monitor_and_download_state.
    by apply monitor_loop_keeps_on_disk.
Qed.

Lemma init_state_on_disk fs : downloaded_on_disk (init_state fs).
Proof. intros seg Hseg. simpl in Hseg. set_solver. Qed.

Lemma session_downloaded_on_disk_witness :
  schedule_free config w_two_rounds
  ∧ downloaded_on_disk (init_state ∅)
  ∧ downloaded_on_disk (monitor_and_download config w_two_rounds 3 300 (init_state ∅)).2.
Proof.
  assert (schedule_free config w_two_rounds) as H by (right; exact w_two_rounds_nodup).
  split; [exact H|]. split; [exact (init_state_on_disk ∅)|].
  exact (proj2 (session_downloaded_on_disk config w_two_rounds (init_state ∅)
                  H (init_state_on_disk ∅)) 3%nat 300).
Defined.

(** ** ConcurrencyCoordinator *)

Lemma sorted_sorted (l : list Z) : StronglySorted Z.le (sorted l).
Proof. apply StronglySorted_merge_sort; apply _. Qed.

Lemma run_fetches_successes_downloaded cfg w l st seg :
  seg ∈ (run_fetches cfg w l st).1 →
  seg ∈ downloaded_segments (run_fetches cfg w l st).2.
Proof.
  revert st. induction l as [|s l IH]; intros st; simpl.
  { by intros ?%elem_of_nil. }
  destruct (download_segment_effect cfg w s 0 st) as [Hd _ _ _ _ _].
  pose proof (run_fetches_grows cfg w l (download_segment cfg w s 0 st).2) as [Hg _].
  destruct (download_segment cfg w s 0 st) as [ok st1]. specialize (IH st1).
  destruct (run_fetches cfg w l st1) as [succ st2] eqn:H2. simpl in *.
  rewrite H2 in Hg. simpl in Hg.
  destruct ok; [|done]. intros [->|Hin]%elem_of_cons; [|by apply IH].
  apply Hg. rewrite Hd. set_solver.
Qed.

Lemma dispatch_result_spec cfg w m st l :
  (download_available_segments cfg w m st).1 = inr l →
  ∀ seg, seg ∈ l → seg ∈ downloaded_segments (download_available_segments cfg w m st).2.
Proof.
  rewrite download_available_segments_eq.
  destruct (get_segment_status w st).1; [done|].
  destruct (probe_ready w st) as [|a rdy] eqn:Hr.
  { simpl. intros [= <-]. by intros seg ?%elem_of_nil. }
  cbv zeta. destruct (to_download_of (a :: rdy) m st) as [|hd tl] eqn:Ht.
  { simpl. intros [= <-] seg Hseg. by apply elem_of_elements in Hseg. }
  case_bool_decide; [done|].
  change (@inr exn _ (sorted (run_fetches cfg w (hd :: tl) (log ReqStatus st)).1) = inr l →
          ∀ seg, seg ∈ l →
            seg ∈ downloaded_segments (run_fetches cfg w (hd :: tl) (log ReqStatus st)).2).
  intros Hl.
  assert (l = sorted (run_fetches cfg w (hd :: tl) (log ReqStatus st)).1) as ->
    by congruence.
  intros seg Hseg. rewrite sorted_elem in Hseg.
  exact (run_fetches_successes_downloaded cfg w (hd :: tl) (log ReqStatus st) seg Hseg).
Qed.

(** X7. Every index in the list that a dispatch round returns is recorded
    Downloaded when the round ends, and when the round submitted
    fetches the list is in ascending order. *)
Theorem dispatch_result_downloaded cfg w m st l :
  (download_available_segments cfg w m st).1 = inr l →
  (∀ seg, seg ∈ l → seg ∈ downloaded_segments (download_available_segments cfg w m st).2)
  ∧ (to_download_of (probe_ready w st) m st ≠ [] → StronglySorted Z.le l).
Proof.
  intros Hl. split; [by apply dispatch_result_spec|].
  revert Hl. rewrite download_available_segments_eq.
  destruct (get_segment_status w st).1; [done|].
  destruct (probe_ready w st) as [|a rdy] eqn:Hr.
  { simpl. intros [= <-] _. constructor. }
  cbv zeta. destruct (to_download_of (a :: rdy) m st) as [|hd tl] eqn:Ht; [done|].
  case_bool_decide; [done|].
  change (@inr exn _ (sorted (run_fetches cfg w (hd :: tl) (log ReqStatus st)).1) = inr l →
          hd :: tl ≠ [] → StronglySorted Z.le l).
  intros Hl _.
  assert (l = sorted (run_fetches cfg w (hd :: tl) (log ReqStatus st)).1) as ->
    by congruence.
  apply sorted_sorted.
Qed.

Lemma dispatch_result_downloaded_witness :
  (download_available_segments config w_complete None (init_state ∅)).1 = inr [0; 1]
  ∧ ∀ seg, seg ∈ [0; 1] →
      seg ∈ downloaded_segments
              (download_available_segments config w_complete None (init_state ∅)).2.
Proof.
  assert ((download_available_segments config w_complete None (init_state ∅)).1
          = inr [0; 1]) as H by (vm_compute; reflexivity).
  split; [exact H|].
  exact (proj1 (dispatch_result_downloaded config w_complete None (init_state ∅) [0; 1] H)).
Defined.

(** A round changes the state of submitted indices only. *)
Lemma run_fetches_settles cfg w l st seg :
  seg ∉ l →
  (seg ∈ downloaded_segments (run_fetches cfg w l st).2 ↔ seg ∈ downloaded_segments st)
  ∧ (seg ∈ failed_segments (run_fetches cfg w l st).2 ↔ seg ∈ failed_segments st).
Proof.
  revert st. induction l as [|s l IH]; intros st Hseg; simpl; [done|].
  destruct (download_segment_effect cfg w s 0 st) as [Hd Hf _ _ _ _].
  destruct (download_segment cfg w s 0 st) as [ok st1].
  specialize (IH st1). destruct (run_fetches cfg w l st1) as [succ st2].
  simpl in *. destruct IH as [IHd IHf]; [set_solver|].
  rewrite IHd, IHf, Hd, Hf. clear IHd IHf Hd Hf. destruct ok; set_solver.
Qed.

(** X8. The limit [max_segments] of a dispatch round.  A limit of 0 is no
    limit at all.  A positive limit [m] submits the first [m] ready
    indices that are neither Downloaded nor Failed, and no other index
    changes state in the round.  A negative limit drops that many
    indices from the end of the list. *)
Theorem max_segments_limit cfg w m st :
  let pending_ready := to_download_of (probe_ready w st) None st in
  let submitted := to_download_of (probe_ready w st) (Some m) st in
  let st' := (download_available_segments cfg w (Some m) st).2 in
  (m = 0 → submitted = pending_ready)
  ∧ (0 < m →
       submitted = take (Z.to_nat m) pending_ready
       ∧ (length submitted ≤ Z.to_nat m)%nat
       ∧ (∀ seg, pending st seg → ¬ pending st' seg → seg ∈ submitted))
  ∧ (m < 0 →
       submitted = take (length pending_ready - Z.to_nat (- m)) pending_ready).
Proof.
  intros pending_ready submitted st'. split; [|split].
  - intros ->. done.
  - intros Hm.
    assert (submitted = take (Z.to_nat m) pending_ready) as Hsub.
    { unfold submitted, to_download_of.
      rewrite bool_decide_eq_true_2 by lia. unfold py_slice_to.
      by rewrite bool_decide_eq_true_2 by lia. }
    split; [done|]. split.
    { rewrite Hsub, length_take. lia. }
    intros seg Hp Hnp. destruct (decide (seg ∈ submitted)) as [|Hn]; [done|].
    destruct Hnp. unfold st'.
    destruct (dispatch_state_cases cfg w (Some m) st) as [-> | ->]; [done|].
    destruct (run_fetches_settles cfg w submitted (log ReqStatus st) seg Hn)
      as [Hd Hf].
    destruct Hp as [Hp1 Hp2]. split; intros H; [apply Hd in H|apply Hf in H]; done.
  - intros Hm. unfold submitted, pending_ready, to_download_of.
    rewrite bool_decide_eq_true_2 by lia. unfold py_slice_to.
    rewrite bool_decide_eq_false_2 by lia. f_equal. lia.
Qed.

(** ** MonitorLoop *)

Lemma fetch_delivered cfg w seg r st :
  (∀ k, delivers (stream_response w seg k)) →
  let res := download_segment cfg w seg r st in
  res.1 = true
  ∧ downloaded_segments res.2 = {[seg]} ∪ downloaded_segments st
  ∧ failed_segments res.2 = failed_segments st
  ∧ ∃ evs, trace res.2 = trace st ++ evs ∧ Forall is_stream_request evs.
Proof.
  intros Hw. simpl. rewrite download_segment_eq.
  destruct (segment_on_disk seg st).
  { simpl. repeat split. exists []. by rewrite app_nil_r. }
  pose proof (try_download_file w seg st) as H.
  pose proof (try_download_effect w seg st) as He.
  destruct (Hw (stream_requests seg (trace st))) as (cl & chunks & Hr & Hcl & Hne).
  rewrite Hr in H. rewrite bool_decide_eq_false_2 in H by done.
  assert (∃ st1, try_download w seg st = (None, st1)) as (st1 & Ht)
    by (destruct cl; [by destruct H as (? & ? & _); eauto..|done]).
  rewrite Ht in He |- *. destruct He as (Htr & Hf & Hd & _).
  simpl. repeat split; [done..|].
  exists [ReqStream seg]. split; [done|].
  apply List.Forall_cons; [by eexists|done].
Qed.

Lemma run_fetches_delivered cfg w l : ∀ st,
  (∀ seg k, delivers (stream_response w seg k)) →
  let res := run_fetches cfg w l st in
  res.1 = l
  ∧ downloaded_segments res.2 = list_to_set l ∪ downloaded_segments st
  ∧ failed_segments res.2 = failed_segments st
  ∧ ∃ evs, trace res.2 = trace st ++ evs ∧ Forall is_stream_request evs.
Proof.
  induction l as [|s l IH]; intros st Hw; simpl.
  { repeat split; [set_solver|]. exists []. by rewrite app_nil_r. }
  destruct (fetch_delivered cfg w s 0 st (Hw s)) as (H1 & H2 & H3 & evs1 & H4 & H5).
  destruct (download_segment cfg w s 0 st) as [ok st1]. simpl in *. subst ok.
  destruct (IH st1 Hw) as (I1 & I2 & I3 & evs2 & I4 & I5).
  destruct (run_fetches cfg w l st1) as [succ st2]. simpl in *. subst succ.
  split; [done|]. split; [rewrite I2, H2; set_solver|]. split; [congruence|].
  exists (evs1 ++ evs2). split; [by rewrite I4, H4, app_assoc|].
  by apply Forall_app.
Qed.

Lemma sorted_elements_list_to_set (l : list Z) :
  NoDup l → sorted (elements (list_to_set l : gset Z)) = sorted l.
Proof.
  intros Hnd. apply (StronglySorted_unique Z.le); [apply sorted_sorted..|].
  unfold sorted. rewrite !merge_sort_Permutation. by apply elements_list_to_set.
Qed.

(** The run of the monitor on a backend that has everything ready and
    delivers everything: one dispatch round, one more probe, and the
    loop is left. *)
Lemma all_complete_run cfg w l fs fuel max_wait_time :
  0 < MAX_CONCURRENT cfg →
  l ≠ [] → NoDup l →
  (∀ n, status_response w n = StatusObject (Some l) (Some (len l))) →
  (∀ seg k, delivers (stream_response w seg k)) →
  clock w 1 - clock w 0 < max_wait_time → (1 ≤ fuel)%nat →
  monitor_and_download cfg w fuel max_wait_time (init_state fs)
  = (Some (AllComplete, sorted l),
     log ReqStatus (run_fetches cfg w l (log ReqStatus (init_state fs))).2).
Proof.
  intros Hwidth Hne Hnd Hstatus Hw Hclock Hfuel.
  destruct fuel as [|fuel]; [lia|].
  assert (∀ st, get_segment_status w st
                = (inr {| ready := l; total := Some (len l) |}, log ReqStatus st))
    as Hprobe.
  { intros st. unfold get_segment_status, status_try. by rewrite Hstatus. }
  assert (to_download_of l None (log ReqStatus (init_state fs)) = l) as Htd.
  { unfold to_download_of. simpl. clear. induction l as [|a l IH]; [done|].
    rewrite filter_cons, decide_True by set_solver. by rewrite IH. }
  destruct (run_fetches_delivered cfg w l (log ReqStatus (init_state fs)) Hw)
    as (R1 & R2 & R3 & evs & R4 & R5).
  assert (monitor_cycle cfg w {| last_segment_count := 0; no_new_segments_count := 0 |}
            (init_state fs)
          = (Break AllComplete,
             update_counters (sorted l)
               {| last_segment_count := 0; no_new_segments_count := 0 |},
             log ReqStatus (run_fetches cfg w l (log ReqStatus (init_state fs))).2))
    as Hcycle.
  { assert (probe_ready w (init_state fs) = l) as Hpr
      by (unfold probe_ready; by rewrite Hprobe).
    unfold monitor_cycle. rewrite download_available_segments_eq.
    rewrite Hpr, Hprobe. cbv beta iota zeta.
    change (to_download_of l None (init_state fs))
      with (to_download_of l None (log ReqStatus (init_state fs))).
    rewrite Htd. destruct l as [|a l'] eqn:El; [done|]. rewrite <- El in *.
    rewrite (bool_decide_eq_false_2 (MAX_CONCURRENT cfg ≤ 0)) by lia.
    cbn [fst snd]. cbv beta iota zeta. rewrite Hprobe. cbv beta iota zeta. rewrite R1.
    assert (all_downloaded {| ready := l; total := Some (len l) |}
              (log ReqStatus (run_fetches cfg w l (log ReqStatus (init_state fs))).2)
            = true) as ->; [|done].
    unfold all_downloaded. cbn [total]. apply andb_true_iff. split.
    - apply bool_decide_eq_true. unfold len. rewrite El. simpl. lia.
    - apply bool_decide_eq_true.
      change (downloaded_segments (log ReqStatus ?s)) with (downloaded_segments s).
      rewrite R2. simpl. rewrite union_empty_r_L.
      unfold len.
      assert (length (elements (list_to_set l : gset Z)) = length l) as ->
        by (by rewrite elements_list_to_set).
      lia. }
  unfold monitor_and_download. cbn [monitor_loop].
  rewrite bool_decide_eq_true_2 by done. rewrite Hcycle. cbn [fst snd].
  change (downloaded_segments (log ReqStatus ?s)) with (downloaded_segments s).
  rewrite R2. simpl. rewrite union_empty_r_L.
  by rewrite sorted_elements_list_to_set.
Qed.

(** X9. With a pool of positive width, when the backend lists the same
    non-empty, repetition-free set of indices in every status answer,
    gives its size as the total, and delivers every stream request, a
    fresh session downloads all of them in the first cycle and the
    monitor stops there as AllComplete: it returns the indices in
    ascending order, nothing is Failed, two status requests were made
    and no sleep took place. *)
Theorem monitor_all_complete cfg w l fs fuel max_wait_time :
  0 < MAX_CONCURRENT cfg →
  l ≠ [] → NoDup l →
  (∀ n, status_response w n = StatusObject (Some l) (Some (len l))) →
  (∀ seg k, delivers (stream_response w seg k)) →
  clock w 1 - clock w 0 < max_wait_time → (1 ≤ fuel)%nat →
  let res := monitor_and_download cfg w fuel max_wait_time (init_state fs) in
  res.1 = Some (AllComplete, sorted l)
  ∧ downloaded_segments res.2 = list_to_set l
  ∧ failed_segments res.2 = ∅
  ∧ ∃ evs, trace res.2 = ReqStatus :: evs ++ [ReqStatus]
           ∧ Forall is_stream_request evs.
Proof.
  intros Hwidth Hne Hnd Hstatus Hw Hclock Hfuel. cbv zeta.
  rewrite (all_complete_run cfg w l fs fuel max_wait_time) by done.
  destruct (run_fetches_delivered cfg w l (log ReqStatus (init_state fs)) Hw)
    as (R1 & R2 & R3 & evs & R4 & R5).
  cbn [fst snd].
  change (downloaded_segments (log ReqStatus ?s)) with (downloaded_segments s).
  change (failed_segments (log ReqStatus ?s)) with (failed_segments s).
  rewrite R2, R3. simpl. rewrite union_empty_r_L.
  split; [done|]. split; [done|]. split; [done|].
  exists evs. split; [|done]. rewrite R4. done.
Qed.

Lemma monitor_all_complete_witness :
  0 < MAX_CONCURRENT config
  ∧ ([0; 1] : list Z) ≠ [] ∧ NoDup ([0; 1] : list Z)
  ∧ (∀ n, status_response w_complete n = StatusObject (Some [0; 1]) (Some (len [0; 1])))
  ∧ (∀ seg k, delivers (stream_response w_complete seg k))
  ∧ clock w_complete 1 - clock w_complete 0 < 300 ∧ (1 ≤ 5)%nat
  ∧ (monitor_and_download config w_complete 5 300 (init_state ∅)).1
    = Some (AllComplete, sorted [0; 1]).
Proof.
  assert (([0; 1] : list Z) ≠ []) as H1 by done.
  assert (NoDup ([0; 1] : list Z)) as H2.
  { apply NoDup_cons. split; [set_solver|apply NoDup_singleton]. }
  assert (∀ n, status_response w_complete n
               = StatusObject (Some [0; 1]) (Some (len [0; 1]))) as H3
    by (intros n; reflexivity).
  assert (∀ seg k, delivers (stream_response w_complete seg k)) as H4.
  { intros seg k. exists CLAbsent, [[Byte.x61]]. by repeat split. }
  assert (clock w_complete 1 - clock w_complete 0 < 300) as H5 by (simpl; lia).
  assert (1 ≤ 5)%nat as H6 by lia.
  assert (0 < MAX_CONCURRENT config) as H0 by (simpl; lia).
  split; [exact H0|].
  split; [exact H1|]. split; [exact H2|]. split; [exact H3|]. split; [exact H4|].
  split; [exact H5|]. split; [exact H6|].
  exact (proj1 (monitor_all_complete config w_complete [0; 1] ∅ 5 300
                  H0 H1 H2 H3 H4 H5 H6)).
Defined.

Lemma stagnation_stop_witness :
  (∀ n, nothing_ready (status_response w_nothing_ready n))
  ∧ downloaded_segments (init_state ∅) = ∅
  ∧ (10 ≤ 10)%nat
  ∧ (∀ j, (1 ≤ j ≤ 10)%nat → clock w_nothing_ready j - clock w_nothing_ready 0 < 300)
  ∧ (monitor_and_download config w_nothing_ready 10 300 (init_state ∅)).1
    = Some (Stagnant, []).
Proof.
  assert (∀ n, nothing_ready (status_response w_nothing_ready n)) as H1.
  { intros n. right. exists (Some []), None. by repeat split. }
  assert (downloaded_segments (init_state ∅) = ∅) as H2 by reflexivity.
  assert (10 ≤ 10)%nat as H3 by lia.
  assert (∀ j, (1 ≤ j ≤ 10)%nat →
               clock w_nothing_ready j - clock w_nothing_ready 0 < 300) as H4
    by (intros j Hj; simpl; lia).
  split; [exact H1|]. split; [exact H2|]. split; [exact H3|]. split; [exact H4|].
  exact (proj1 (stagnation_stop config w_nothing_ready H1 10 300 (init_state ∅) H2 H3 H4)).
Defined.

Lemma monitor_loop_deadline cfg w n : ∀ fuel start_time max_wait_time k c st,
  max_wait_time ≤ clock w (k + n) - start_time → (n < fuel)%nat →
  ∃ r, (monitor_loop cfg w fuel start_time max_wait_time k c st).1.1 = Some r.
Proof.
  induction n as [|n IH]; intros fuel start_time max_wait_time k c st Hclock Hfuel;
    (destruct fuel as [|fuel]; [lia|]); simpl.
  - rewrite Nat.add_0_r in Hclock. rewrite bool_decide_eq_false_2 by lia. by eexists.
  - case_bool_decide; [|by eexists].
    destruct (monitor_cycle cfg w c st) as [[[| r | e] c1] st1]; [|by eexists|];
      (apply IH; [|lia]); by replace (S k + n)%nat with (k + S n)%nat by lia.
Qed.

(** X11. The wall-clock bound ends the monitor loop.  If the [K]-th
    reading of the clock is [max_wait_time] or more past the first one,
    the loop stops within [K] passes, whatever the backend answers, and
    returns the Downloaded indices in a sorted list. *)
Theorem monitor_stops_by_deadline cfg w K fuel max_wait_time st :
  (1 ≤ K)%nat → max_wait_time ≤ clock w K - clock w 0 → (K ≤ fuel)%nat →
  let res := monitor_and_download cfg w fuel max_wait_time st in
  ∃ r, res.1 = Some (r, sorted (elements (downloaded_segments res.2))).
Proof.
  intros HK Hclock Hfuel. simpl. unfold monitor_and_download.
  destruct (monitor_loop_deadline cfg w (K - 1) fuel (clock w 0) max_wait_time 1
              {| last_segment_count := 0; no_new_segments_count := 0 |} st)
    as (r & Hr); [by replace (1 + (K - 1))%nat with K by lia|lia|].
  destruct (monitor_loop _ _ _ _ _ _ _ _) as [[[r'|] c1] st1]; simpl in *; [|done].
  by exists r'.
Qed.

Lemma monitor_stops_by_deadline_witness :
  (1 ≤ 3)%nat ∧ 6 ≤ clock w_progressive 3 - clock w_progressive 0 ∧ (3 ≤ 3)%nat
  ∧ ∃ r, (monitor_and_download config w_progressive 3 6 (init_state ∅)).1
         = Some (r, sorted (elements (downloaded_segments
                   (monitor_and_download config w_progressive 3 6 (init_state ∅)).2))).
Proof.
  assert (1 ≤ 3)%nat as H1 by lia.
  assert (6 ≤ clock w_progressive 3 - clock w_progressive 0) as H2 by (simpl; lia).
  assert (3 ≤ 3)%nat as H3 by lia.
  split; [exact H1|]. split; [exact H2|]. split; [exact H3|].
  exact (monitor_stops_by_deadline config w_progressive 3 3 6 (init_state ∅) H1 H2 H3).
Defined.

(** ** Sorted views of the tracking sets *)

Lemma strictly_sorted (l : list Z) :
  StronglySorted Z.le l → NoDup l → StronglySorted Z.lt l.
Proof.
  induction 1 as [|x l Hs IH Hall]; intros Hnd; [constructor|].
  apply NoDup_cons in Hnd as [Hx Hnd]. constructor; [by apply IH|].
  rewrite List.Forall_forall in Hall. apply List.Forall_forall. intros y Hy.
  specialize (Hall y Hy). apply list_elem_of_In in Hy.
  assert (x ≠ y) by (intros ->; done). lia.
Qed.

Lemma sorted_elements_spec (X : gset Z) :
  StronglySorted Z.lt (sorted (elements X))
  ∧ (∀ x, x ∈ sorted (elements X) ↔ x ∈ X)
  ∧ len (sorted (elements X)) = len (elements X).
Proof.
  split; [|split].
  - apply strictly_sorted; [apply sorted_sorted|].
    unfold sorted. rewrite merge_sort_Permutation. apply NoDup_elements.
  - intros x. by rewrite sorted_elem, elem_of_elements.
  - unfold len, sorted. by rewrite merge_sort_Permutation.
Qed.

(** X12. The list that the monitor returns, for whatever reason the loop
    stopped, is strictly ascending and holds exactly the indices that are
    Downloaded at that moment; these include every index that was
    Downloaded before the loop started. *)
Theorem monitor_result_cumulative cfg w fuel max_wait_time st r l :
  (monitor_and_download cfg w fuel max_wait_time st).1 = Some (r, l) →
  let st' := (monitor_and_download cfg w fuel max_wait_time st).2 in
  StronglySorted Z.lt l
  ∧ (∀ seg, seg ∈ l ↔ seg ∈ downloaded_segments st')
  ∧ (∀ seg, seg ∈ downloaded_segments st → seg ∈ l).
Proof.
  intros Hres st'.
  assert (l = sorted (elements (downloaded_segments st'))) as ->.
  { unfold st'. revert Hres. unfold monitor_and_download.
    destruct (monitor_loop _ _ _ _ _ _ _ _) as [[[r'|] c1] st1]; simpl; congruence. }
  destruct (sorted_elements_spec (downloaded_segments st')) as (Hs & Hin & _).
  split; [done|]. split; [done|]. intros seg Hseg. apply Hin.
  unfold st'. rewrite monitor_and_download_state.
  destruct (monitor_loop_extends cfg w fuel (clock w 0) max_wait_time 1
              {| last_segment_count := 0; no_new_segments_count := 0 |} st)
    as (Hd & _). by apply Hd.
Qed.

Lemma monitor_result_cumulative_witness :
  (monitor_and_download config w_complete 5 300 (init_state ∅)).1
  = Some (AllComplete, [0; 1])
  ∧ StronglySorted Z.lt [0; 1].
Proof.
  assert ((monitor_and_download config w_complete 5 300 (init_state ∅)).1
          = Some (AllComplete, [0; 1])) as H by (vm_compute; reflexivity).
  split; [exact H|].
  exact (proj1 (monitor_result_cumulative config w_complete 5 300 (init_state ∅)
                  AllComplete [0; 1] H)).
Defined.

(** ** ProgressSnapshot *)

(** X13. The statistics agree with the tracking sets: each of the two
    lists is strictly ascending and holds exactly the indices of its
    set, and each count is the length of its list. *)
Theorem download_stats_consistent st :
  let s := get_download_stats st in
  StronglySorted Z.lt (downloaded_list s)
  ∧ StronglySorted Z.lt (failed_list s)
  ∧ (∀ seg, seg ∈ downloaded_list s ↔ seg ∈ downloaded_segments st)
  ∧ (∀ seg, seg ∈ failed_list s ↔ seg ∈ failed_segments st)
  ∧ stats_downloaded_segments s = len (downloaded_list s)
  ∧ stats_failed_segments s = len (failed_list s).
Proof.
  simpl.
  destruct (sorted_elements_spec (downloaded_segments st)) as (D1 & D2 & D3).
  destruct (sorted_elements_spec (failed_segments st)) as (F1 & F2 & F3).
  by repeat split; try apply D2; try apply F2.
Qed.

(** ** Assembler *)

Lemma StronglySorted_list_filter (f : Z → bool) (l : list Z) :
  StronglySorted Z.lt l → StronglySorted Z.lt (List.filter f l).
Proof.
  induction 1 as [|x l Hs IH Hall]; simpl; [constructor|].
  destruct (f x); [|done]. constructor; [done|].
  rewrite List.Forall_forall in *. intros y [Hy _]%List.filter_In. by apply Hall.
Qed.

Lemma list_filter_all (f : Z → bool) (l : list Z) :
  (∀ x, x ∈ l → f x = true) → List.filter f l = l.
Proof.
  induction l as [|x l IH]; intros Hall; simpl; [done|].
  rewrite Hall by set_solver. rewrite IH; [done|]. intros y Hy. apply Hall. set_solver.
Qed.

(** The files handed to the assembler: the Downloaded indices that have
    a file, in strictly ascending order. *)
Lemma existing_segment_files_spec st :
  StronglySorted Z.lt (existing_segment_files st)
  ∧ (∀ seg, seg ∈ existing_segment_files st
            ↔ seg ∈ downloaded_segments st ∧ is_Some (files st !! seg)).
Proof.
  unfold existing_segment_files.
  destruct (sorted_elements_spec (downloaded_segments st)) as (Hs & Hin & _). split.
  - by apply StronglySorted_list_filter.
  - intros seg. rewrite list_elem_of_In, List.filter_In, <- list_elem_of_In, Hin.
    by rewrite bool_decide_eq_true.
Qed.

Lemma existing_segment_files_all st :
  downloaded_on_disk st →
  existing_segment_files st = sorted (elements (downloaded_segments st)).
Proof.
  intros Hinv. unfold existing_segment_files. apply list_filter_all.
  intros seg Hseg. apply bool_decide_eq_true.
  apply sorted_elem, elem_of_elements, Hinv in Hseg.
  unfold segment_on_disk in Hseg. by destruct (files st !! seg).
Qed.

Lemma not_unreadable st seg :
  ¬ unreadable st seg ↔ ∃ f, files st !! seg = Some f ∧ readable f = true.
Proof.
  unfold unreadable. split.
  - intros Hn. destruct (files st !! seg) as [f|] eqn:Hf.
    + destruct (readable f) eqn:Hr; [by eauto|].
      destruct Hn. intros f' [= <-]. done.
    + destruct Hn. intros f' Hf'. congruence.
  - intros (f & Hf & Hr) Hu. specialize (Hu f Hf). congruence.
Qed.

(** The simple path on an output that can be opened. *)
Lemma combine_simple_spec w segs st :
  output_openable w = true →
  ((_combine_simple w segs st).1 = true ↔ all_readable st segs)
  ∧ ((_combine_simple w segs st).1 = true →
       (_combine_simple w segs st).2 = set_output (Some (segments_bytes st segs)) st).
Proof.
  intros Ho. unfold _combine_simple. rewrite Ho.
  pose proof (copy_segments_spec segs st []) as H.
  destruct (copy_segments segs [] st) as [[e|] out]; simpl.
  - destruct H as (copied & seg & rest & -> & Hu & _). split; [|done].
    split; [done|]. intros Hall. destruct (proj2 (not_unreadable st seg)); [|done].
    apply Hall. set_solver.
  - destruct H as (-> & Hall). split; [|done]. split; [|done].
    intros _ seg Hseg. by apply not_unreadable, Hall.
Qed.

(** The assembler leaves the session alone. *)
Lemma combine_frame w use_ffmpeg st :
  let res := combine_segments w use_ffmpeg st in
  files res.2 = files st
  ∧ downloaded_segments res.2 = downloaded_segments st
  ∧ failed_segments res.2 = failed_segments st
  ∧ trace res.2 = trace st.
Proof.
  simpl. unfold combine_segments.
  destruct (elements (downloaded_segments st)); [done|].
  destruct (existing_segment_files st) as [|s0 segs]; [done|].
  destruct (use_ffmpeg && _has_ffmpeg w).
  - unfold _combine_with_ffmpeg.
    destruct (ffmpeg_run w (s0 :: segs)) as [|[] [b|]]; done.
  - unfold _combine_simple. destruct (output_openable w); [|done].
    by destruct (copy_segments (s0 :: segs) [] st) as [[e|] out].
Qed.

Lemma combine_simple_result w use_ffmpeg st :
  use_ffmpeg && _has_ffmpeg w = false → output_openable w = true →
  let segs := existing_segment_files st in
  ((combine_segments w use_ffmpeg st).1 = true ↔ segs ≠ [] ∧ all_readable st segs)
  ∧ ((combine_segments w use_ffmpeg st).1 = true →
       output_file (combine_segments w use_ffmpeg st).2
       = Some (segments_bytes st segs)).
Proof.
  intros Hpath Ho segs. unfold combine_segments. fold segs.
  destruct (elements (downloaded_segments st)) as [|d ds] eqn:Hel.
  { assert (segs = []) as ->.
    { unfold segs, existing_segment_files. by rewrite Hel. }
    simpl. split; [|done]. split; [done|]. by intros [? _]. }
  destruct segs as [|s0 rest] eqn:Hsegs.
  { simpl. split; [|done]. split; [done|]. by intros [? _]. }
  rewrite Hpath.
  destruct (combine_simple_spec w (s0 :: rest) st Ho) as [Hiff Hout].
  split.
  - rewrite Hiff. split; [by intros ?|by intros [_ ?]].
  - intros Hres. by rewrite (Hout Hres).
Qed.

(** X14. Assembly by simple concatenation.  The files handed to the
    assembler are the Downloaded indices that have a file, in strictly
    ascending order.  When the output can be opened, the simple path
    returns Success exactly when there is at least one such file and all
    of them can be read, and the output file then holds their bytes
    concatenated in that order. *)
Theorem combine_simple_concatenates w use_ffmpeg st :
  use_ffmpeg && _has_ffmpeg w = false → output_openable w = true →
  let segs := existing_segment_files st in
  let res := combine_segments w use_ffmpeg st in
  StronglySorted Z.lt segs
  ∧ (∀ seg, seg ∈ segs ↔ seg ∈ downloaded_segments st ∧ is_Some (files st !! seg))
  ∧ (res.1 = true ↔ segs ≠ [] ∧ all_readable st segs)
  ∧ (res.1 = true → output_file res.2 = Some (segments_bytes st segs)).
Proof.
  intros Hpath Ho segs res.
  destruct (existing_segment_files_spec st) as [Hs Hin].
  destruct (combine_simple_result w use_ffmpeg st Hpath Ho) as [Hiff Hout].
  by repeat split; try apply Hin; try apply Hiff; try apply Hout.
Qed.

Lemma combine_simple_concatenates_witness :
  false && _has_ffmpeg w_down = false ∧ output_openable w_down = true
  ∧ output_file (combine_segments w_down false st_two_segments).2
    = Some [Byte.x61; Byte.x62].
Proof.
  assert (false && _has_ffmpeg w_down = false) as H1 by reflexivity.
  assert (output_openable w_down = true) as H2 by reflexivity.
  split; [exact H1|]. split; [exact H2|].
  destruct (combine_simple_concatenates w_down false st_two_segments H1 H2)
    as (_ & _ & Hiff & Hout).
  rewrite Hout; [by vm_compute|]. by vm_compute.
Defined.

(** X15. The assembler never touches the session: whatever path it
    takes and whether it succeeds or not, the segment files, the two
    tracking sets and the trace are as before; and when no Downloaded
    index has a file it returns Failure and changes nothing at all. *)
Theorem combine_keeps_session w use_ffmpeg st :
  let res := combine_segments w use_ffmpeg st in
  files res.2 = files st
  ∧ downloaded_segments res.2 = downloaded_segments st
  ∧ failed_segments res.2 = failed_segments st
  ∧ trace res.2 = trace st
  ∧ (existing_segment_files st = [] → res = (false, st)).
Proof.
  intros res. destruct (combine_frame w use_ffmpeg st) as (H1 & H2 & H3 & H4).
  split; [done|]. split; [done|]. split; [done|]. split; [done|].
  intros Hnil. unfold res, combine_segments. rewrite Hnil.
  by destruct (elements (downloaded_segments st)).
Qed.

(** X16. Assembly through the remux tool.  When the tool is asked for
    and available and at least one Downloaded index has a file, the
    manifest lists these indices in ascending order, the result is
    Success exactly when the tool exits with status 0, the manifest is
    removed after a successful run and left in place after a failed one. *)
Theorem combine_ffmpeg_manifest w st :
  _has_ffmpeg w = true → existing_segment_files st ≠ [] →
  let segs := existing_segment_files st in
  let res := combine_segments w true st in
  StronglySorted Z.lt segs
  ∧ (res.1 = true ↔ ∃ written, ffmpeg_run w segs = FfmpegExit true written)
  ∧ (res.1 = true → list_file res.2 = None)
  ∧ (res.1 = false → list_file res.2 = Some segs).
Proof.
  intros Hff Hne segs res. split; [apply existing_segment_files_spec|].
  unfold res, combine_segments. fold segs.
  destruct (elements (downloaded_segments st)) as [|d ds] eqn:Hel.
  { destruct Hne. unfold existing_segment_files. by rewrite Hel. }
  destruct segs as [|s0 rest] eqn:Hsegs; [done|].
  rewrite Hff. simpl. unfold _combine_with_ffmpeg.
  destruct (ffmpeg_run w (s0 :: rest)) as [|[] [b|]]; simpl;
    (split; [split; [try done; by eauto|by intros (? & ?)]|by split]).
Qed.

Lemma combine_ffmpeg_manifest_witness :
  _has_ffmpeg w_ffmpeg_fails = true
  ∧ existing_segment_files st_two_segments ≠ []
  ∧ list_file (combine_segments w_ffmpeg_fails true st_two_segments).2 = Some [0; 1].
Proof.
  assert (_has_ffmpeg w_ffmpeg_fails = true) as H1 by reflexivity.
  assert (existing_segment_files st_two_segments ≠ []) as H2 by (by vm_compute).
  split; [exact H1|]. split; [exact H2|].
  destruct (combine_ffmpeg_manifest w_ffmpeg_fails st_two_segments H1 H2)
    as (_ & _ & _ & Hleft).
  rewrite Hleft; [by vm_compute|]. by vm_compute.
Defined.

(** ** Command line *)

Lemma combine_simple_not_openable w use_ffmpeg st :
  use_ffmpeg && _has_ffmpeg w = false → output_openable w = false →
  (combine_segments w use_ffmpeg st).1 = false.
Proof.
  intros Hpath Ho. unfold combine_segments.
  destruct (elements (downloaded_segments st)); [done|].
  destruct (existing_segment_files st); [done|].
  rewrite Hpath. unfold _combine_simple. by rewrite Ho.
Qed.

Lemma segments_bytes_files st st' l :
  files st' = files st → segments_bytes st' l = segments_bytes st l.
Proof. unfold segments_bytes. by intros ->. Qed.

Lemma nonempty_elem {A} (l : list A) : nonempty l = true → ∃ x, x ∈ l.
Proof. destruct l as [|x l]; [done|]. intros _. exists x. set_solver. Qed.

(** A pool width that is not positive: a round ends at the probe or at
    the constructor of the pool, so that no fetch ever runs. *)
Lemma dispatch_without_pool cfg w m st :
  MAX_CONCURRENT cfg ≤ 0 →
  (download_available_segments cfg w m st).2 = log ReqStatus st.
Proof.
  intros Hwidth. rewrite download_available_segments_eq.
  destruct (get_segment_status w st).1; [done|].
  destruct (probe_ready w st); [done|].
  cbv zeta. destruct (to_download_of _ m st); [done|].
  by rewrite bool_decide_eq_true_2.
Qed.

Lemma monitor_loop_without_pool cfg w fuel start_time max_wait_time k c st :
  MAX_CONCURRENT cfg ≤ 0 →
  downloaded_segments (monitor_loop cfg w fuel start_time max_wait_time k c st).2
  = downloaded_segments st.
Proof.
  intros Hwidth. revert k c st.
  induction fuel as [|fuel IH]; intros k c st; simpl; [done|].
  case_bool_decide; [|done].
  assert (downloaded_segments (monitor_cycle cfg w c st).2 = downloaded_segments st)
    as Hc.
  { pose proof (dispatch_without_pool cfg w None st Hwidth) as Hd.
    destruct (monitor_cycle_state_cases cfg w c st) as [-> | [-> | ->]];
      simpl; by rewrite Hd. }
  destruct (monitor_cycle cfg w c st) as [[[| r | e] c1] st1]; simpl in *;
    [|done|]; by rewrite IH.
Qed.

Lemma w_complete_nodup : ready_lists_nodup w_complete.
Proof.
  intros n r t. simpl. intros [= <- _].
  apply NoDup_cons. split; [set_solver|apply NoDup_singleton].
Qed.

(** The end of [main], from the list of downloaded indices on. *)
Lemma main_finish w args downloaded st1 st' :
  downloaded_on_disk st1 →
  (∀ seg, seg ∈ downloaded → seg ∈ downloaded_segments st1) →
  (if combine_requested args && nonempty downloaded then
     match combine_segments w (negb (no_ffmpeg args)) st1 with
     | (true, st2) => if nonempty downloaded then Some (0, st2) else Some (1, st2)
     | (false, st2) => Some (1, st2)
     end
   else if nonempty downloaded then Some (0, st1) else Some (1, st1))
  = Some (0, st') →
  downloaded_segments st' = downloaded_segments st1
  ∧ downloaded_segments st' ≠ ∅
  ∧ downloaded_on_disk st'
  ∧ (combine_requested args = true →
     negb (no_ffmpeg args) && _has_ffmpeg w = false →
     output_file st'
     = Some (segments_bytes st' (sorted (elements (downloaded_segments st'))))).
Proof.
  intros Hinv Hin.
  destruct (nonempty downloaded) eqn:Hne.
  2:{ rewrite andb_false_r. done. }
  destruct (nonempty_elem downloaded Hne) as (x & Hx). apply Hin in Hx.
  rewrite andb_true_r.
  destruct (combine_requested args) eqn:Hc.
  - destruct (combine_frame w (negb (no_ffmpeg args)) st1) as (F1 & F2 & _).
    destruct (combine_segments w (negb (no_ffmpeg args)) st1) as [[] st2] eqn:Hcomb;
      [|done].
    intros [= <-]. simpl in F1, F2. split; [done|]. split; [rewrite F2; set_solver|].
    split; [by apply (downloaded_on_disk_same st1)|].
    intros _ Hpath.
    destruct (output_openable w) eqn:Ho.
    + destruct (combine_simple_result w (negb (no_ffmpeg args)) st1 Hpath Ho)
        as [_ Hout].
      rewrite Hcomb in Hout. simpl in Hout. rewrite Hout by done.
      rewrite F2, (segments_bytes_files st1 st2) by done.
      by rewrite existing_segment_files_all.
    + pose proof (combine_simple_not_openable w (negb (no_ffmpeg args)) st1 Hpath Ho)
        as Hfalse.
      rewrite Hcomb in Hfalse. done.
  - intros [= <-]. split; [done|]. split; [set_solver|]. by split.
Qed.

(** What an exit with status 0 says about the run. *)
Lemma main_exit_zero w fuel args fs st' :
  main w fuel args fs = Some (0, st') →
  String.length (video_id args) = 11%nat
  ∧ 0 < concurrent args
  ∧ downloaded_segments st' ≠ ∅
  ∧ downloaded_on_disk st'
  ∧ (combine_requested args = true →
     negb (no_ffmpeg args) && _has_ffmpeg w = false →
     output_file st'
     = Some (segments_bytes st' (sorted (elements (downloaded_segments st'))))).
Proof.
  unfold main. case_bool_decide as Hlen; [done|].
  set (cfg := {| MAX_CONCURRENT := _ |}).
  assert (∀ st1 : State,
    (MAX_CONCURRENT cfg ≤ 0 → downloaded_segments st1 = ∅) →
    downloaded_segments st' = downloaded_segments st1 →
    downloaded_segments st' ≠ ∅ → 0 < concurrent args) as Hwidth.
  { intros st1 Hnone Heq Hne.
    destruct (decide (0 < concurrent args)) as [|Hle]; [done|].
    destruct Hne. rewrite Heq. apply Hnone. simpl. lia. }
  destruct (no_monitor args).
  - pose proof (dispatch_keeps_on_disk cfg w None (init_state fs)
                  (init_state_on_disk fs)) as Hinv.
    pose proof (dispatch_result_spec cfg w None (init_state fs)) as Hres.
    pose proof (dispatch_without_pool cfg w None (init_state fs)) as Hnone.
    destruct (download_available_segments cfg w None (init_state fs))
      as [[e|downloaded] st1]; [done|].
    intros Hmain. split; [done|].
    destruct (main_finish w args downloaded st1 st' Hinv (Hres downloaded eq_refl) Hmain)
      as (Heq & Hne & Hdisk & Hout).
    split; [|done].
    apply (Hwidth st1); [|done..].
    intros Hle. simpl in Hnone. by rewrite Hnone.
  - pose proof (monitor_and_download_state cfg w fuel (max_wait args) (init_state fs))
      as Hst.
    pose proof (monitor_loop_keeps_on_disk cfg w fuel (clock w 0) (max_wait args) 1
                  {| last_segment_count := 0; no_new_segments_count := 0 |}
                  (init_state fs) (init_state_on_disk fs)) as Hinv.
    pose proof (monitor_loop_without_pool cfg w fuel (clock w 0) (max_wait args) 1
                  {| last_segment_count := 0; no_new_segments_count := 0 |}
                  (init_state fs)) as Hnone.
    rewrite <- Hst in Hinv, Hnone. unfold monitor_and_download in *.
    destruct (monitor_loop _ _ _ _ _ _ _ _) as [[[r|] c1] st1]; [|done].
    simpl in Hinv, Hnone. intros Hmain. split; [done|].
    assert (∀ seg, seg ∈ sorted (elements (downloaded_segments st1)) →
                   seg ∈ downloaded_segments st1) as Hin.
    { intros seg Hseg. by apply sorted_elem, elem_of_elements in Hseg. }
    destruct (main_finish w args _ st1 st' Hinv Hin Hmain)
      as (Heq & Hne & Hdisk & Hout).
    split; [|done].
    apply (Hwidth st1); [|done..].
    intros Hle. by rewrite Hnone.
Qed.

(** X17. Exit status of the command.  A video id whose length is not 11
    ends the command with status 1 before any downloader exists: no
    request is made.  With a pool width that is not positive the command
    never ends with status 0.  When the command ends with status 0, the
    id has 11 characters, the pool width is positive and at least one
    index is Downloaded; if moreover the pool runs do not depend on the
    schedule (one worker, or no index listed twice in a status answer),
    every Downloaded index has a non-empty file, and if a combined
    output was asked for and the simple path was taken, the output file
    holds the bytes of all Downloaded segments in ascending order. *)
Theorem main_exit_status w fuel args fs :
  (String.length (video_id args) ≠ 11%nat →
     main w fuel args fs = Some (1, init_state fs))
  ∧ (concurrent args ≤ 0 → ∀ st', main w fuel args fs ≠ Some (0, st'))
  ∧ (∀ st', main w fuel args fs = Some (0, st') →
       String.length (video_id args) = 11%nat
       ∧ 0 < concurrent args
       ∧ downloaded_segments st' ≠ ∅
       ∧ (concurrent args ≤ 1 ∨ ready_lists_nodup w →
            downloaded_on_disk st'
            ∧ (combine_requested args = true →
               negb (no_ffmpeg args) && _has_ffmpeg w = false →
               output_file st'
               = Some (segments_bytes st'
                         (sorted (elements (downloaded_segments st'))))))).
Proof.
  split; [|split].
  - intros Hlen. unfold main. by rewrite bool_decide_eq_true_2.
  - intros Hwidth st' Hmain.
    destruct (main_exit_zero w fuel args fs st' Hmain) as (_ & Hpos & _). lia.
  - intros st' Hmain.
    destruct (main_exit_zero w fuel args fs st' Hmain)
      as (Hlen & Hpos & Hne & Hdisk & Hout).
    by repeat (split; [done|]).
Qed.

Lemma main_exit_status_witness :
  ∃ st', main w_complete 1 args_one_shot ∅ = Some (0, st')
         ∧ (concurrent args_one_shot ≤ 1 ∨ ready_lists_nodup w_complete)
         ∧ output_file st' = Some [Byte.x61; Byte.x61].
Proof.
  eexists. split; [vm_compute; reflexivity|].
  split; [right; exact w_complete_nodup|].
  match goal with
  | |- output_file ?s = _ =>
      assert (main w_complete 1 args_one_shot ∅ = Some (0, s)) as H
        by (vm_compute; reflexivity);
      destruct (proj2 (proj2 (main_exit_status w_complete 1 args_one_shot ∅)) s H)
        as (_ & _ & _ & Hsched)
  end.
  destruct (Hsched (or_intror w_complete_nodup)) as [_ Hout].
  rewrite Hout by reflexivity. vm_compute. reflexivity.
Defined.

(** ** A whole session *)

Lemma fetch_delivered_file cfg w seg r st :
  delivers (stream_response w seg (stream_requests seg (trace st))) →
  segment_on_disk seg st = false →
  files (download_segment cfg w seg r st).2 !! seg
  = Some {| data := body_at w seg (stream_requests seg (trace st)); readable := true |}.
Proof.
  intros (cl & chunks & Hr & Hcl & Hne) Hd. rewrite download_segment_eq, Hd.
  pose proof (try_download_file w seg st) as H. unfold body_at. rewrite Hr in H |- *.
  rewrite bool_decide_eq_false_2 in H by done.
  assert (∃ st1, try_download w seg st = (None, st1)
                 ∧ files st1 !! seg = Some {| data := received chunks; readable := true |})
    as (st1 & Ht & Hf) by (by destruct cl).
  by rewrite Ht.
Qed.

Lemma run_fetches_files cfg w l st seg :
  seg ∉ l → files (run_fetches cfg w l st).2 !! seg = files st !! seg.
Proof.
  revert st. induction l as [|s l IH]; intros st Hseg; simpl; [done|].
  destruct (download_segment_effect cfg w s 0 st) as [_ _ Hfs _ _ _].
  destruct (download_segment cfg w s 0 st) as [ok st1]. specialize (IH st1).
  destruct (run_fetches cfg w l st1) as [succ st2]. simpl in *.
  rewrite IH by set_solver. apply Hfs. set_solver.
Qed.

Lemma run_fetches_delivered_files cfg w l : ∀ st,
  NoDup l → (∀ seg k, delivers (stream_response w seg k)) →
  (∀ seg, seg ∈ l →
     segment_on_disk seg st = false ∧ stream_requests seg (trace st) = 0%nat) →
  ∀ seg, seg ∈ l →
    files (run_fetches cfg w l st).2 !! seg
    = Some {| data := body_at w seg 0; readable := true |}.
Proof.
  induction l as [|s l IH]; intros st Hnd Hw Hfresh seg Hseg.
  { by apply elem_of_nil in Hseg. }
  apply NoDup_cons in Hnd as [Hs Hnd].
  pose proof (fetch_delivered_file cfg w s 0 st (Hw s _)) as Hfile.
  destruct (Hfresh s) as [Hd0 Hr0]; [set_solver|]. rewrite Hr0 in Hfile.
  specialize (Hfile Hd0).
  destruct (download_segment_effect cfg w s 0 st) as [_ _ Hfs _ _ (evs & Htr & Hall)].
  pose proof (run_fetches_files cfg w l (download_segment cfg w s 0 st).2 s Hs) as Hkeep.
  specialize (IH (download_segment cfg w s 0 st).2 Hnd Hw).
  simpl. destruct (download_segment cfg w s 0 st) as [ok st1]. simpl in *.
  destruct (run_fetches cfg w l st1) as [succ st2] eqn:Hrun. simpl in *.
  apply elem_of_cons in Hseg as [->|Hseg].
  - by rewrite Hkeep.
  - apply IH; [|done]. intros t Ht.
    assert (t ≠ s) as Hne by (intros ->; done).
    destruct (Hfresh t) as [Hd Hr]; [set_solver|]. split.
    + by rewrite (segment_on_disk_files t st st1) by by apply Hfs.
    + rewrite Htr, stream_requests_app, Hr.
      by rewrite (fetch_events_other_requests s t evs).
Qed.

(** X18. Download, then assemble.  With a pool of positive width and a
    backend that lists the same non-empty, repetition-free indices in
    every status answer, gives their number as the total and delivers
    every stream request, a session on an empty directory followed by a
    simple concatenation succeeds, and the output file holds the bodies
    that the backend sent for these indices, in ascending order of
    index. *)
Theorem session_then_combine cfg w l fuel max_wait_time use_ffmpeg :
  0 < MAX_CONCURRENT cfg →
  l ≠ [] → NoDup l →
  (∀ n, status_response w n = StatusObject (Some l) (Some (len l))) →
  (∀ seg k, delivers (stream_response w seg k)) →
  clock w 1 - clock w 0 < max_wait_time → (1 ≤ fuel)%nat →
  use_ffmpeg && _has_ffmpeg w = false → output_openable w = true →
  let st' := (monitor_and_download cfg w fuel max_wait_time (init_state ∅)).2 in
  let res := combine_segments w use_ffmpeg st' in
  res.1 = true
  ∧ output_file res.2
    = Some (concat (List.map (λ seg, body_at w seg 0) (sorted l))).
Proof.
  intros Hwidth Hne Hnd Hstatus Hw Hclock Hfuel Hpath Ho. cbv zeta.
  rewrite (all_complete_run cfg w l ∅ fuel max_wait_time) by done. cbn [snd].
  set (st0 := log ReqStatus (init_state ∅)).
  set (st1 := (run_fetches cfg w l st0).2).
  destruct (run_fetches_delivered cfg w l st0 Hw) as (_ & R2 & _).
  fold st1 in R2. simpl in R2. rewrite union_empty_r_L in R2.
  assert (∀ seg, seg ∈ l →
            files st1 !! seg = Some {| data := body_at w seg 0; readable := true |})
    as Hfiles.
  { apply run_fetches_delivered_files; [done..|]. intros seg _. split; [done|].
    unfold st0, stream_requests. simpl.
    first [done | by rewrite filter_cons, decide_False]. }
  assert (downloaded_on_disk (log ReqStatus st1)) as Hinv.
  { apply (downloaded_on_disk_same st1); [done..|].
    apply run_fetches_keeps_on_disk. intros seg Hseg. simpl in Hseg. set_solver. }
  assert (existing_segment_files (log ReqStatus st1) = sorted l) as Hsegs.
  { rewrite existing_segment_files_all by done. simpl. rewrite R2.
    by apply sorted_elements_list_to_set. }
  destruct (combine_simple_result w use_ffmpeg (log ReqStatus st1) Hpath Ho)
    as [Hiff Hout].
  rewrite Hsegs in Hiff, Hout.
  assert ((combine_segments w use_ffmpeg (log ReqStatus st1)).1 = true) as Hres.
  { apply Hiff. split.
    - destruct l as [|a l']; [done|]. intros Hnil.
      assert (a ∈ sorted (a :: l')) as Ha by (apply sorted_elem; set_solver).
      rewrite Hnil in Ha. by apply elem_of_nil in Ha.
    - intros seg Hseg. rewrite sorted_elem in Hseg.
      eexists. split; [by apply Hfiles|done]. }
  split; [done|]. rewrite (Hout Hres). f_equal. unfold segments_bytes. f_equal.
  apply List.map_ext_in. intros seg Hseg. apply list_elem_of_In in Hseg.
  rewrite sorted_elem in Hseg. simpl. by rewrite (Hfiles seg Hseg).
Qed.

Lemma session_then_combine_witness :
  0 < MAX_CONCURRENT config
  ∧ ([0; 1] : list Z) ≠ [] ∧ NoDup ([0; 1] : list Z)
  ∧ (∀ n, status_response w_complete n = StatusObject (Some [0; 1]) (Some (len [0; 1])))
  ∧ (∀ seg k, delivers (stream_response w_complete seg k))
  ∧ clock w_complete 1 - clock w_complete 0 < 300 ∧ (1 ≤ 5)%nat
  ∧ false && _has_ffmpeg w_complete = false ∧ output_openable w_complete = true
  ∧ output_file
      (combine_segments w_complete false
         (monitor_and_download config w_complete 5 300 (init_state ∅)).2).2
    = Some (concat (List.map (λ seg, body_at w_complete seg 0) (sorted [0; 1]))).
Proof.
  assert (([0; 1] : list Z) ≠ []) as H1 by done.
  assert (NoDup ([0; 1] : list Z)) as H2.
  { apply NoDup_cons. split; [set_solver|apply NoDup_singleton]. }
  assert (∀ n, status_response w_complete n
               = StatusObject (Some [0; 1]) (Some (len [0; 1]))) as H3
    by (intros n; reflexivity).
  assert (∀ seg k, delivers (stream_response w_complete seg k)) as H4.
  { intros seg k. exists CLAbsent, [[Byte.x61]]. by repeat split. }
  assert (clock w_complete 1 - clock w_complete 0 < 300) as H5 by (simpl; lia).
  assert (1 ≤ 5)%nat as H6 by lia.
  assert (false && _has_ffmpeg w_complete = false) as H7 by reflexivity.
  assert (output_openable w_complete = true) as H8 by reflexivity.
  assert (0 < MAX_CONCURRENT config) as H0 by (simpl; lia).
  split; [exact H0|]. split; [exact H1|]. split; [exact H2|]. split; [exact H3|]. split; [exact H4|].
  split; [exact H5|]. split; [exact H6|]. split; [exact H7|]. split; [exact H8|].
  exact (proj2 (session_then_combine config w_complete [0; 1] 5 300 false
                  H0 H1 H2 H3 H4 H5 H6 H7 H8)).
Defined.

(** ** The monitor and a probe that raises *)

Lemma not_object_cycle cfg w c st :
  (∀ n, status_response w n = StatusNotObject) →
  monitor_cycle cfg w c st
  = (Caught AttributeError, c, sleep (POLLING_INTERVAL cfg) (log ReqStatus st)).
Proof.
  intros Hw. unfold monitor_cycle, download_available_segments,
    get_segment_status, status_try. by rewrite Hw.
Qed.

Lemma not_object_loop cfg w n : ∀ fuel start_time max_wait_time k c st,
  (∀ n, status_response w n = StatusNotObject) →
  (∀ j, (k ≤ j < k + n)%nat → clock w j - start_time < max_wait_time) →
  max_wait_time ≤ clock w (k + n) - start_time → (n < fuel)%nat →
  ∃ st1,
    monitor_loop cfg w fuel start_time max_wait_time k c st = (Some TimedOut, c, st1)
    ∧ files st1 = files st
    ∧ downloaded_segments st1 = downloaded_segments st
    ∧ failed_segments st1 = failed_segments st
    ∧ status_requests (trace st1) = (status_requests (trace st) + n)%nat
    ∧ (∀ seg, stream_requests seg (trace st1) = stream_requests seg (trace st)).
Proof.
  induction n as [|n IH]; intros fuel start_time max_wait_time k c st Hw Hbefore Hat Hfuel;
    (destruct fuel as [|fuel]; [lia|]); simpl.
  - rewrite Nat.add_0_r in Hat. rewrite bool_decide_eq_false_2 by lia.
    exists st. repeat split; lia.
  - rewrite bool_decide_eq_true_2 by (apply Hbefore; lia).
    rewrite not_object_cycle by done.
    destruct (IH fuel start_time max_wait_time (S k) c
                (sleep (POLLING_INTERVAL cfg) (log ReqStatus st)))
      as (st1 & -> & H1 & H2 & H3 & H4 & H5); [done| | |lia|].
    { intros j Hj. apply Hbefore. lia. }
    { by replace (S k + n)%nat with (k + S n)%nat by lia. }
    exists st1. repeat split; [done..| |].
    + rewrite H4. simpl. rewrite !status_requests_app. unfold status_requests at 2 3.
      rewrite !filter_cons, decide_True, decide_False by done. simpl. lia.
    + intros seg. rewrite H5. simpl. rewrite !stream_requests_app.
      unfold stream_requests at 2 3.
      rewrite !filter_cons, !decide_False by done. simpl. lia.
Qed.

(** X19. A status body that is valid JSON but not an object makes the
    probe raise inside the monitor loop; the loop catches the exception,
    sleeps and polls again.  With such a backend throughout, the loop is
    never stopped by stagnation: it polls once per pass until the
    wall-clock bound is reached, stops as TimedOut, and has downloaded
    nothing, failed nothing and requested no segment. *)
Theorem monitor_survives_raising_probe cfg w K fuel max_wait_time st :
  (∀ n, status_response w n = StatusNotObject) →
  (1 ≤ K)%nat →
  (∀ j, (1 ≤ j < K)%nat → clock w j - clock w 0 < max_wait_time) →
  max_wait_time ≤ clock w K - clock w 0 → (K ≤ fuel)%nat →
  let res := monitor_and_download cfg w fuel max_wait_time st in
  res.1 = Some (TimedOut, sorted (elements (downloaded_segments st)))
  ∧ files res.2 = files st
  ∧ downloaded_segments res.2 = downloaded_segments st
  ∧ failed_segments res.2 = failed_segments st
  ∧ status_requests (trace res.2) = (status_requests (trace st) + (K - 1))%nat
  ∧ (∀ seg, stream_requests seg (trace res.2) = stream_requests seg (trace st)).
Proof.
  intros Hw HK Hbefore Hat Hfuel. cbv zeta. unfold monitor_and_download.
  destruct (not_object_loop cfg w (K - 1) fuel (clock w 0) max_wait_time 1
              {| last_segment_count := 0; no_new_segments_count := 0 |} st)
    as (st1 & -> & H1 & H2 & H3 & H4 & H5); [done| | |lia|].
  { intros j Hj. apply Hbefore. lia. }
  { by replace (1 + (K - 1))%nat with K by lia. }
  simpl. by rewrite H2.
Qed.

Lemma monitor_survives_raising_probe_witness :
  (∀ n, status_response w_not_object n = StatusNotObject)
  ∧ (1 ≤ 4)%nat
  ∧ (∀ j, (1 ≤ j < 4)%nat → clock w_not_object j - clock w_not_object 0 < 8)
  ∧ 8 ≤ clock w_not_object 4 - clock w_not_object 0 ∧ (4 ≤ 20)%nat
  ∧ (monitor_and_download config w_not_object 20 8 (init_state ∅)).1
    = Some (TimedOut, sorted (elements (downloaded_segments (init_state ∅)))).
Proof.
  assert (∀ n, status_response w_not_object n = StatusNotObject) as H1
    by (intros n; reflexivity).
  assert (1 ≤ 4)%nat as H2 by lia.
  assert (∀ j, (1 ≤ j < 4)%nat → clock w_not_object j - clock w_not_object 0 < 8)
    as H3 by (intros j Hj; simpl; lia).
  assert (8 ≤ clock w_not_object 4 - clock w_not_object 0) as H4 by (simpl; lia).
  assert (4 ≤ 20)%nat as H5 by lia.
  split; [exact H1|]. split; [exact H2|]. split; [exact H3|]. split; [exact H4|].
  split; [exact H5|].
  exact (proj1 (monitor_survives_raising_probe config w_not_object 4 20 8 (init_state ∅)
                  H1 H2 H3 H4 H5)).
Defined.
